(** * mcp-server-abs: the execution service and the stdio client

    A shallow embedding of
      - [HybridExecutionService] (services/HybridExecutionService.ts),
      - the tool handlers of the server (src/index.ts),
      - [HybridMCPClient] (the line-framed JSON-RPC client),
    and the properties of them that the design document states.

    Conventions.
      - A JavaScript [Map] is a [gmap]; iteration order is only observable
        in the executions table, which is not modelled beyond one row.
      - Instants are millisecond counts ([Date.now()]).  The service stores
        [new Date().toISOString()] and reads it back with
        [new Date(s).getTime()]; that round trip is exact at millisecond
        precision, so a spec keeps the millisecond count itself.
      - Numbers that the code only ever uses as integers are [Z].
      - What the runtime supplies (the UUID drawn by [crypto.randomUUID],
        the clock, what [axios.get] settles with, [JSON.parse]) is an
        explicit argument of the operation that consumes it. *)

From stdpp Require Import gmap strings list fin_maps pretty sorting.
From Stdlib Require Import Ascii ZArith Lia.

Local Open Scope Z_scope.
Set Warnings "-register-all".

(** ** JavaScript values *)

Module Js.

(** The values that cross the JSON boundaries of the program.  Objects keep
    their properties in insertion order; the first binding of a key is the
    one that counts. *)
Inductive JsValue : Type :=
| JUndefined
| JNull
| JBool (b : bool)
| JNum (n : Z)
| JStr (s : string)
| JArr (elems : list JsValue)
| JObj (props : list (string * JsValue)).

(** What a [throw] carries: an [Error] instance (only its message is ever
    read) or any other value. *)
Inductive Thrown : Type :=
| ThrownError (message : string)
| ThrownValue (v : JsValue).

(** A computation that may throw. *)
Inductive Res (A : Type) : Type :=
| Ok (a : A)
| Throw (e : Thrown).
Arguments Ok {A} a.
Arguments Throw {A} e.

Definition bind {A B} (r : Res A) (k : A -> Res B) : Res B :=
  match r with
  | Ok a => k a
  | Throw e => Throw e
  end.

Notation "'try!' x := r 'in' k" := (bind r (fun x => k))
  (at level 10, x name, r at level 100, k at level 200).

(** [ToBoolean]. *)
Definition truthy (v : JsValue) : bool :=
  match v with
  | JUndefined | JNull => false
  | JBool b => b
  | JNum n => negb (n =? 0)
  | JStr s => negb (bool_decide (s = ""))
  | JArr _ | JObj _ => true
  end.

(** [typeof v === "string"]. *)
Definition is_string (v : JsValue) : bool :=
  match v with
  | JStr _ => true
  | _ => false
  end.

Fixpoint assoc (key : string) (props : list (string * JsValue)) : option JsValue :=
  match props with
  | [] => None
  | (k, v) :: rest => if bool_decide (k = key) then Some v else assoc key rest
  end.

(** [v?.name] for a property name that no built-in prototype defines
    (datasetId, executionId, id, data, dataSets, observations): an own
    property of an object, [undefined] everywhere else. *)
Definition get_opt (name : string) (v : JsValue) : JsValue :=
  match v with
  | JObj props => default JUndefined (assoc name props)
  | _ => JUndefined
  end.

(** [v.name], same names: reading a property of [undefined] or [null]
    throws a TypeError. *)
Definition get (name : string) (v : JsValue) : Res JsValue :=
  match v with
  | JUndefined =>
      Throw (ThrownError
        ("Cannot read properties of undefined (reading '" +:+ name +:+ "')"))
  | JNull =>
      Throw (ThrownError
        ("Cannot read properties of null (reading '" +:+ name +:+ "')"))
  | _ => Ok (get_opt name v)
  end.

(** [v?.[0]]. *)
Definition get_opt_index0 (v : JsValue) : JsValue :=
  match v with
  | JArr (x :: _) => x
  | JStr (String c _) => JStr (String c "")
  | JObj props => default JUndefined (assoc "0" props)
  | _ => JUndefined
  end.

Definition join (sep : string) (parts : list string) : string :=
  match parts with
  | [] => ""
  | p :: rest => fold_left (fun acc q => acc +:+ sep +:+ q) rest p
  end.

(** [String(v)], as a template literal applies it.  A number is printed
    in full decimals, where JavaScript turns to the exponent form from
    1e21 on; an object is printed as JavaScript prints one that has no
    [toString] of its own. *)
Fixpoint to_string (v : JsValue) : string :=
  match v with
  | JUndefined => "undefined"
  | JNull => "null"
  | JBool true => "true"
  | JBool false => "false"
  | JNum n => pretty n
  | JStr s => s
  | JArr elems =>
      join ","
        (map (fun e => match e with
                       | JUndefined | JNull => ""
                       | _ => to_string e
                       end) elems)
  | JObj _ => "[object Object]"
  end.

Fixpoint distinct_keys (seen : list string) (props : list (string * JsValue)) : nat :=
  match props with
  | [] => O
  | (k, _) :: rest =>
      if bool_decide (k ∈ seen) then distinct_keys seen rest
      else S (distinct_keys (k :: seen) rest)
  end.

(** [Object.keys(v).length] for a truthy [v].  For a string this counts
    its bytes, and JavaScript its UTF-16 code units; on ASCII text the two
    are the same. *)
Definition keys_length (v : JsValue) : Z :=
  match v with
  | JObj props => Z.of_nat (distinct_keys [] props)
  | JArr elems => Z.of_nat (length elems)
  | JStr s => Z.of_nat (String.length s)
  | _ => 0
  end.

End Js.

Import Js.

(** ** HybridExecutionService *)

Module Service.

Inductive SpecStatus : Type := Pending | Executing | Success | Error.

Inductive ResultStatus : Type := RSuccess | RError.

Record ApiCall : Type := {
  method : string;
  url : string;
  params : option (list (string * string));
  headers : option (list (string * string))
}.

Record ExecutionSpec : Type := {
  executionId : string;
  toolName : string;
  parameters : JsValue;
  apiCall : ApiCall;
  timestamp : Z;
  status : SpecStatus;
  ttl : option Z
}.

(** An absent key of the object literal is [None]. *)
Record ExecutionResult : Type := {
  r_executionId : string;
  r_status : ResultStatus;
  r_recordCount : option Z;
  r_data : option JsValue;
  r_error : option string;
  r_executedAt : option Z
}.

Record ExecutionRequest : Type := {
  q_toolName : string;
  q_parameters : JsValue
}.

(** The service object, together with the log of the URLs it has handed to
    [axios.get] (oldest first). *)
Record State : Type := {
  executions : gmap string ExecutionSpec;
  http_log : list string
}.

Definition fresh : State := {| executions := ∅; http_log := [] |}.

Definition ABS_API_BASE : string := "https://data.api.abs.gov.au".
Definition DEFAULT_TTL : Z := 15 * 60 * 1000.

Definition set_status (s : SpecStatus) (spec : ExecutionSpec) : ExecutionSpec :=
  {| executionId := executionId spec;
     toolName := toolName spec;
     parameters := parameters spec;
     apiCall := apiCall spec;
     timestamp := timestamp spec;
     status := s;
     ttl := ttl spec |}.

Definition buildApiCall (tool : string) (parameters : JsValue) : Res ApiCall :=
  if bool_decide (tool = "query_dataset") then
    try! datasetId := get "datasetId" parameters in
    Ok {| method := "GET";
          url := ABS_API_BASE +:+ "/rest/data/" +:+ to_string datasetId +:+ "/all";
          params := Some [("format", "jsondata");
                          ("dimensionAtObservation", "AllDimensions")];
          headers := None |}
  else Throw (ThrownError ("Unknown tool: " +:+ tool)).

(** [uuid] is what [crypto.randomUUID()] returned for this call and [now]
    what the clock read. *)
Definition generateExecutionSpec (uuid : string) (now : Z)
    (request : ExecutionRequest) (st : State) : Res (ExecutionSpec * State) :=
  let executionId := uuid in
  try! apiCall := buildApiCall (q_toolName request) (q_parameters request) in
  let spec := {| executionId := executionId;
                 toolName := q_toolName request;
                 parameters := q_parameters request;
                 apiCall := apiCall;
                 timestamp := now;
                 status := Pending;
                 ttl := Some DEFAULT_TTL |} in
  Ok (spec, {| executions := <[executionId := spec]> (executions st);
               http_log := http_log st |}).

Definition getExecutionSpec (executionId : string) (st : State) : option ExecutionSpec :=
  executions st !! executionId.

(** [new URLSearchParams(params).toString()].  The only keys and values the
    service ever stores are alphanumeric, on which the form encoding is the
    identity. *)
Definition URLSearchParams_toString (params : list (string * string)) : string :=
  join "&" (map (fun kv => fst kv +:+ "=" +:+ snd kv) params).

(** What [await axios.get(url)] settles with: a response (only its [data]
    is read) or a rejection. *)
Inductive HttpOutcome : Type :=
| Fulfilled (data : JsValue)
| Rejected (e : Thrown).

Definition countRecords (data : JsValue) : Z :=
  let observations :=
    get_opt "observations"
      (get_opt_index0 (get_opt "dataSets" (get_opt "data" data))) in
  if truthy observations then keys_length observations else 0.

Definition error_description (e : Thrown) : string :=
  match e with
  | ThrownError message => message
  | ThrownValue v => to_string v
  end.

Definition request_url (spec : ExecutionSpec) : string :=
  url (apiCall spec) +:+ "?" +:+
  URLSearchParams_toString (default [] (params (apiCall spec))).

Definition notFound (executionId : string) : ExecutionResult :=
  {| r_executionId := executionId;
     r_status := RError;
     r_recordCount := None;
     r_data := None;
     r_error := Some "Execution spec not found";
     r_executedAt := None |}.

(** [spec.status = s] for the object stored under [executionId].  The
    object that [executeSpec] holds is the one in the map, as long as the
    entry has not been deleted meanwhile; then the assignment changes an
    object that the map no longer holds. *)
Definition assign_status (executionId : string) (s : SpecStatus)
    (m : gmap string ExecutionSpec) : gmap string ExecutionSpec :=
  alter (set_status s) executionId m.

(** [executeSpec] up to its [await], for the [spec] found under
    [executionId]: its status becomes [executing] and the request leaves. *)
Definition executeSpec_start (executionId : string) (spec : ExecutionSpec)
    (st : State) : State :=
  {| executions := assign_status executionId Executing (executions st);
     http_log := http_log st ++ [request_url spec] |}.

(** [executeSpec] from its [await] on: [outcome] is what the request settled
    with, [now] what the clock reads then. *)
Definition executeSpec_settle (executionId : string) (outcome : HttpOutcome)
    (now : Z) (st : State) : ExecutionResult * State :=
  match outcome with
  | Fulfilled data =>
      let recordCount := countRecords data in
      ({| r_executionId := executionId;
          r_status := RSuccess;
          r_recordCount := Some recordCount;
          r_data := None;
          r_error := None;
          r_executedAt := Some now |},
       {| executions := assign_status executionId Success (executions st);
          http_log := http_log st |})
  | Rejected e =>
      ({| r_executionId := executionId;
          r_status := RError;
          r_recordCount := None;
          r_data := None;
          r_error := Some (error_description e);
          r_executedAt := None |},
       {| executions := assign_status executionId Error (executions st);
          http_log := http_log st |})
  end.

(** The whole call, with nothing else running during the [await]. *)
Definition executeSpec (executionId : string) (outcome : HttpOutcome) (now : Z)
    (st : State) : ExecutionResult * State :=
  match executions st !! executionId with
  | None => (notFound executionId, st)
  | Some spec =>
      executeSpec_settle executionId outcome now
        (executeSpec_start executionId spec st)
  end.

(** The stored specs, in the order of their keys; JavaScript lists them in
    the order of insertion. *)
Definition getActiveSpecs (st : State) : list ExecutionSpec :=
  snd <$> map_to_list (executions st).

(** [maxAge] is [None] when the caller leaves the argument out. *)
Definition cleanupOldSpecs (now : Z) (maxAge : option Z) (st : State) : State :=
  let maxAge := default DEFAULT_TTL maxAge in
  {| executions :=
       map_fold (fun id spec (m : gmap string ExecutionSpec) =>
                   let specAge := now - timestamp spec in
                   if bool_decide (specAge > maxAge) then delete id m else m)
                (executions st) (executions st);
     http_log := http_log st |}.

(** [Math.floor(ms / 1000)] and so on; [%] is the truncating remainder. *)
Definition formatDuration (ms : Z) : string :=
  let seconds := ms / 1000 in
  let minutes := seconds / 60 in
  let hours := minutes / 60 in
  if bool_decide (hours > 0) then
    pretty hours +:+ "h " +:+ pretty (Z.rem minutes 60) +:+ "m"
  else if bool_decide (minutes > 0) then
    pretty minutes +:+ "m " +:+ pretty (Z.rem seconds 60) +:+ "s"
  else pretty seconds +:+ "s".

(** The [Expires In] cell of a row of [getExecutionsTable]. *)
Definition expiresInCell (now : Z) (spec : ExecutionSpec) : string :=
  let age := now - timestamp spec in
  let ttl := match ttl spec with
             | Some t => if bool_decide (t = 0) then DEFAULT_TTL else t
             | None => DEFAULT_TTL
             end in
  let expiresIn := Z.max 0 (ttl - age) in
  if bool_decide (expiresIn > 0) then formatDuration expiresIn else "EXPIRED".

(** *** The service over a process lifetime

    One entry per call made on the service object, each carrying what the
    runtime supplied to it. *)
Inductive Call : Type :=
| CallGenerate (uuid : string) (now : Z) (request : ExecutionRequest)
| CallExecute (executionId : string) (outcome : HttpOutcome) (now : Z)
| CallCleanup (now : Z) (maxAge : option Z).

Inductive Reply : Type :=
| ReplySpec (spec : ExecutionSpec)
| ReplyThrown (e : Thrown)
| ReplyResult (result : ExecutionResult)
| ReplyVoid.

Definition step (c : Call) (st : State) : Reply * State :=
  match c with
  | CallGenerate uuid now request =>
      match generateExecutionSpec uuid now request st with
      | Ok (spec, st') => (ReplySpec spec, st')
      | Throw e => (ReplyThrown e, st)
      end
  | CallExecute executionId outcome now =>
      let (result, st') := executeSpec executionId outcome now st in
      (ReplyResult result, st')
  | CallCleanup now maxAge => (ReplyVoid, cleanupOldSpecs now maxAge st)
  end.

(** The replies of a sequence of calls, in order, and the state they leave. *)
Fixpoint run (calls : list Call) (st : State) : list Reply * State :=
  match calls with
  | [] => ([], st)
  | c :: rest =>
      let (reply, st') := step c st in
      let (replies, st'') := run rest st' in
      (reply :: replies, st'')
  end.

(** The UUIDs that [crypto.randomUUID] handed out during the calls. *)
Definition draw (c : Call) : option string :=
  match c with
  | CallGenerate uuid _ _ => Some uuid
  | _ => None
  end.

Definition draws (calls : list Call) : list string := omap draw calls.

(** *** Notions used to state the properties *)

(** The age test of the sweep. *)
Definition too_old (now limit : Z) (spec : ExecutionSpec) : bool :=
  bool_decide (now - timestamp spec > limit).

(** The status [executeSpec] leaves on the spec. *)
Definition settled_status (outcome : HttpOutcome) : SpecStatus :=
  match outcome with
  | Fulfilled _ => Success
  | Rejected _ => Error
  end.

(** The same spec with another time-to-live, and a store whose specs all
    had theirs rewritten. *)
Definition with_ttl (f : ExecutionSpec -> option Z) (spec : ExecutionSpec) : ExecutionSpec :=
  {| executionId := executionId spec;
     toolName := toolName spec;
     parameters := parameters spec;
     apiCall := apiCall spec;
     timestamp := timestamp spec;
     status := status spec;
     ttl := f spec |}.

Definition retitle (f : ExecutionSpec -> option Z) (st : State) : State :=
  {| executions := with_ttl f <$> executions st; http_log := http_log st |}.

(** [args] carries a non-empty string [datasetId]. *)
Definition has_datasetId (args : JsValue) : Prop :=
  ∃ s, get_opt "datasetId" args = JStr s ∧ s ≠ "".

(** A request as the design document calls valid: a registered tool and a
    non-empty string [datasetId]. *)
Definition valid_request (request : ExecutionRequest) : Prop :=
  q_toolName request = "query_dataset" ∧ has_datasetId (q_parameters request).

(** *** The other methods of the service *)

(** [validateSpec].  The timestamp of a spec is the ISO text of an instant,
    which is not empty and which [Date.parse] reads; [apiCall] is an object. *)
Definition validateSpec (spec : ExecutionSpec) : bool :=
  if bool_decide (executionId spec = "") || bool_decide (toolName spec = "")
     || negb (truthy (parameters spec)) then false
  else if bool_decide (method (apiCall spec) = "")
          || bool_decide (url (apiCall spec) = "") then false
  else true.

(** [spec.ttl || DEFAULT_TTL], as the executions table reads it. *)
Definition effective_ttl (spec : ExecutionSpec) : Z :=
  match ttl spec with
  | Some t => if bool_decide (t = 0) then DEFAULT_TTL else t
  | None => DEFAULT_TTL
  end.

(** The request every spec built by [buildApiCall] stands for. *)
Definition abs_data_url (datasetId : string) : string :=
  ABS_API_BASE +:+ "/rest/data/" +:+ datasetId +:+
  "/all?format=jsondata&dimensionAtObservation=AllDimensions".

(** What holds of every spec the service stores: it sits under its own
    identifier and is as [generateExecutionSpec] builds specs. *)
Definition well_stored (id : string) (spec : ExecutionSpec) : Prop :=
  executionId spec = id ∧
  toolName spec = "query_dataset" ∧
  buildApiCall (toolName spec) (parameters spec) = Ok (apiCall spec) ∧
  ttl spec = Some DEFAULT_TTL.

Definition store_ok (st : State) : Prop :=
  ∀ id spec, executions st !! id = Some spec -> well_stored id spec.

(** Two specs that differ in their status at most. *)
Definition same_descriptor (a b : ExecutionSpec) : Prop :=
  set_status Pending a = set_status Pending b.

End Service.

(** ** The tool handlers of the server (index.ts) *)

Module Server.

Import Service.

(** What [handleQueryDataset] returns: the text is the JSON of the spec
    with [status], [datasetId] and [message] overridden or added, and
    [_meta] is the spec object itself. *)
Record QueryDatasetResponse : Type := {
  text_spec : ExecutionSpec;
  text_status : string;
  text_datasetId : JsValue;
  text_message : string;
  _meta : ExecutionSpec
}.

Definition handleQueryDataset (uuid : string) (now : Z) (args : JsValue)
    (st : State) : Res (QueryDatasetResponse * State) :=
  let datasetId := get_opt "datasetId" args in
  if negb (truthy datasetId) || negb (is_string datasetId) then
    Throw (ThrownError "datasetId is required and must be a string")
  else
    try! generated :=
      generateExecutionSpec uuid now
        {| q_toolName := "query_dataset"; q_parameters := args |} st in
    let executionSpec := fst generated in
    Ok ({| text_spec := executionSpec;
           text_status := "ready";
           text_datasetId := datasetId;
           text_message := "Use execute_direct tool with this executionId to fetch data";
           _meta := executionSpec |}, snd generated).

(** [handleExecuteDirect].  The text of its reply is
    [JSON.stringify(result.data, null, 2)], which is [undefined] for an
    absent [data]: [stringify] is only asked about values.  A call that
    throws may have changed the store before, so the state comes back
    either way. *)
Section Tools.

Variable stringify : JsValue -> string.

Definition handleExecuteDirect (args : JsValue) (outcome : HttpOutcome)
    (now : Z) (st : State) : Res (option string) * State :=
  let executionId := get_opt "executionId" args in
  if negb (truthy executionId) then
    (Throw (ThrownError "executionId is required"), st)
  else
    let (result, st') :=
      match executionId with
      | JStr id => executeSpec id outcome now st
      | other =>
          (* a key that is no string is in no entry of the map; of the
             result only the status and the description are read *)
          (notFound (to_string other), st)
      end in
    match r_status result with
    | RError =>
        (Throw (ThrownError
                  (match r_error result with
                   | Some description =>
                       if bool_decide (description = "")
                       then "Failed to execute query" else description
                   | None => "Failed to execute query"
                   end)), st')
    | RSuccess => (Ok (stringify <$> r_data result), st')
    end.

Inductive ToolReply : Type :=
| QueryReply (response : QueryDatasetResponse)
| DirectReply (text : option string).

(** The handler of the call-tool request: the switch on the name, inside
    the [try] whose [catch] rewraps every error. *)
Definition callTool (name : string) (args : JsValue) (uuid : string)
    (outcome : HttpOutcome) (now : Z) (st : State) : Res ToolReply * State :=
  let attempt : Res ToolReply * State :=
    if bool_decide (name = "query_dataset") then
      match handleQueryDataset uuid now args st with
      | Ok (response, st') => (Ok (QueryReply response), st')
      | Throw e => (Throw e, st)
      end
    else if bool_decide (name = "execute_direct") then
      match handleExecuteDirect args outcome now st with
      | (Ok text, st') => (Ok (DirectReply text), st')
      | (Throw e, st') => (Throw e, st')
      end
    else (Throw (ThrownError ("Unknown tool: " +:+ name)), st) in
  match attempt with
  | (Ok reply, st') => (Ok reply, st')
  | (Throw e, st') =>
      (Throw (ThrownError ("Error executing tool " +:+ name +:+ ": " +:+
                           error_description e)), st')
  end.

End Tools.

End Server.

(** ** The handlers of the query tool (handlers module) *)

Module Handlers.

Import Service.

(** What [await axios.get(url)] settles with, as these handlers tell the
    cases apart: a response, an [AxiosError] that carries the response of
    the server, or anything else thrown. *)
Inductive AxiosOutcome : Type :=
| AxFulfilled (data : JsValue)
| AxStatus (status : Z) (data : JsValue)
| AxOther (e : Thrown).

Record ExecutionMetadata : Type := {
  m_executionId : string;
  endpoint : string;
  m_timestamp : Z;
  hybridReady : bool
}.

(** The hybrid response; it has no [data] key in either handler. *)
Record HybridResponse : Type := {
  h_executionId : string;
  h_status : string;
  h_datasetId : string;
  h_recordCount : Z;
  h_summary : string;
  h_apiCall : ApiCall;
  h_data : option JsValue;
  h_meta : option ExecutionMetadata
}.

Definition query_url (datasetId : string) : string :=
  ABS_API_BASE +:+ "/rest/data/" +:+ datasetId +:+
  "/all?format=jsondata&dimensionAtObservation=AllDimensions".

Definition summary (recordCount : Z) (datasetId : string) : string :=
  "Retrieved " +:+ pretty recordCount +:+ " observations from " +:+ datasetId.

Section Handlers.

(** [JSON.stringify] of the body of an error response. *)
Variable stringify : JsValue -> string.

(** The [catch] of both handlers: an error that carries a response is
    replaced by one that reports its status and body, any other is thrown
    again as it is. *)
Definition status_error (status : Z) (data : JsValue) : Thrown :=
  ThrownError ("ABS API Error: " +:+ pretty status +:+ " - " +:+ stringify data).

(** The [datasetId] of the arguments when it passes the check of the
    handlers, a non-empty string. *)
Definition checked_datasetId (args : JsValue) : option string :=
  match get_opt "datasetId" args with
  | JStr s => if bool_decide (s = "") then None else Some s
  | _ => None
  end.

(** [handleQueryDataset]: the handler fetches the data itself and answers
    with the count.  The UUID is drawn after the response has come. *)
Definition handleQueryDataset (args : JsValue) (outcome : AxiosOutcome)
    (uuid : string) (now : Z) : Res HybridResponse :=
  match checked_datasetId args with
  | None => Throw (ThrownError "datasetId is required and must be a string")
  | Some datasetId =>
      let url := query_url datasetId in
      match outcome with
      | AxFulfilled data =>
          let recordCount := countRecords data in
          Ok {| h_executionId := uuid;
                h_status := "success";
                h_datasetId := datasetId;
                h_recordCount := recordCount;
                h_summary := summary recordCount datasetId;
                h_apiCall :=
                  {| method := "GET";
                     url := ABS_API_BASE +:+ "/rest/data/" +:+ datasetId +:+ "/all";
                     params := Some [("format", "jsondata");
                                     ("dimensionAtObservation", "AllDimensions")];
                     headers := None |};
                h_data := None;
                h_meta := Some {| m_executionId := uuid; endpoint := url;
                                  m_timestamp := now; hybridReady := true |} |}
      | AxStatus status data => Throw (status_error status data)
      | AxOther e => Throw e
      end
  end.

(** [handleQueryDatasetWithService], on the service instance of its
    module: the spec is generated and stored first, the data fetched
    after. *)
Definition handleQueryDatasetWithService (args : JsValue) (uuid : string)
    (now : Z) (outcome : AxiosOutcome) (st : State) : Res HybridResponse * State :=
  match checked_datasetId args with
  | None => (Throw (ThrownError "datasetId is required and must be a string"), st)
  | Some datasetId =>
      match generateExecutionSpec uuid now
              {| q_toolName := "query_dataset";
                 q_parameters := JObj [("datasetId", JStr datasetId)] |} st with
      | Throw e => (Throw e, st)
      | Ok (spec, st1) =>
          let url := query_url datasetId in
          let st2 := {| executions := executions st1;
                        http_log := http_log st1 ++ [url] |} in
          match outcome with
          | AxFulfilled data =>
              let recordCount := countRecords data in
              (Ok {| h_executionId := executionId spec;
                     h_status := "success";
                     h_datasetId := datasetId;
                     h_recordCount := recordCount;
                     h_summary := summary recordCount datasetId;
                     h_apiCall :=
                       {| method := method (apiCall spec);
                          url := Service.url (apiCall spec);
                          params := Some (default [] (params (apiCall spec)));
                          headers := None |};
                     h_data := None;
                     h_meta := None |}, st2)
          | AxStatus status data => (Throw (status_error status data), st2)
          | AxOther e => (Throw e, st2)
          end
      end
  end.

End Handlers.

End Handlers.

(** ** Sample data for the examples *)

Module Samples.

Import Service.

Definition queryX : ExecutionRequest :=
  {| q_toolName := "query_dataset";
     q_parameters := JObj [("datasetId", JStr "X")] |}.

Definition queryNothing : ExecutionRequest :=
  {| q_toolName := "query_dataset"; q_parameters := JObj [] |}.

Definition listFlows : ExecutionRequest :=
  {| q_toolName := "list_dataflows"; q_parameters := JObj [] |}.

Definition specX (id : string) (created : Z) : ExecutionSpec :=
  {| executionId := id;
     toolName := "query_dataset";
     parameters := JObj [("datasetId", JStr "X")];
     apiCall := {| method := "GET";
                   url := "https://data.api.abs.gov.au/rest/data/X/all";
                   params := Some [("format", "jsondata");
                                   ("dimensionAtObservation", "AllDimensions")];
                   headers := None |};
     timestamp := created;
     status := Pending;
     ttl := Some 900000 |}.

(** A store with the one spec [specX id created]. *)
Definition oneSpec (id : string) (created : Z) : State :=
  {| executions := {[ id := specX id created ]}; http_log := [] |}.

(** Three specs seen from the instant 10000000 with a [maxAge] of 600000:
    created just now, twice [maxAge] ago, and half of [maxAge] ago. *)
Definition threeSpecs : State :=
  {| executions := {[ "new" := specX "new" 10000000;
                      "old" := specX "old" 8800000;
                      "mid" := specX "mid" 9700000 ]};
     http_log := [] |}.

(** A response of the statistics API with two observations. *)
Definition twoObservations : JsValue :=
  JObj [("data",
         JObj [("dataSets",
                JArr [JObj [("observations",
                             JObj [("0:0", JArr [JNum 1]);
                                   ("0:1", JArr [JNum 2])])]])])].

Definition http500 : Thrown :=
  ThrownError "Request failed with status code 500".

Definition lifetime : list Call :=
  [ CallGenerate "7d1f" 1000 queryX;
    CallExecute "7d1f" (Rejected http500) 2000;
    CallGenerate "a0c4" 3000 queryX;
    CallExecute "7d1f" (Fulfilled twoObservations) 4000;
    CallCleanup 5000 None ].

(** Two requests to which [crypto.randomUUID] gave the same UUID. *)
Definition sameDraw : list Call :=
  [ CallGenerate "7d1f" 1000 queryX;
    CallGenerate "7d1f" 2000 queryX ].

End Samples.

(** ** HybridMCPClient *)

Module Client.

(** *** Strings *)

Definition newline : ascii := "010"%char.

(** [s.split('\n')]: never empty, the last segment is what follows the last
    newline. *)
Fixpoint split_newline (s : string) : list string :=
  match s with
  | EmptyString => [""]
  | String c rest =>
      if bool_decide (c = newline) then "" :: split_newline rest
      else match split_newline rest with
           | seg :: segs => String c seg :: segs
           | [] => [String c ""]
           end
  end.

(** The white space [trim] strips, among the characters below 128. *)
Definition is_space (c : ascii) : bool := Ascii.is_space c.

Fixpoint trimStart (s : string) : string :=
  match s with
  | String c rest => if is_space c then trimStart rest else s
  | EmptyString => ""
  end.

Fixpoint trimEnd (s : string) : string :=
  match s with
  | String c rest =>
      match trimEnd rest with
      | EmptyString => if is_space c then "" else String c ""
      | kept => String c kept
      end
  | EmptyString => ""
  end.

Definition trim (s : string) : string := trimEnd (trimStart s).

(** *** Bytes to text

    A chunk of the child's output is a [Buffer]; here it is the string of
    its bytes.  A JavaScript string is the string of the bytes of its
    UTF-8 encoding, so that ASCII text is itself.  [data.toString()]
    decodes UTF-8 the way the Encoding Standard lays down: a well-formed
    sequence is kept, and each ill-formed stretch, also a sequence that the
    end of the chunk cuts short, becomes one U+FFFD. *)

(** U+FFFD, encoded. *)
Definition replacement : string :=
  String "239" (String "191" (String "189" EmptyString)).

(** A sequence under way: its bytes so far, how many are still to come, and
    the range the next one must lie in. *)
Record Partial : Type := {
  seen : string;
  more : nat;
  lo : N;
  hi : N
}.

Definition byte_in (lo hi : N) (b : ascii) : bool :=
  ((lo <=? N_of_ascii b) && (N_of_ascii b <=? hi))%N.

(** The decoder on a byte when no sequence is under way: what it emits and
    the sequence it has begun. *)
Definition decode_start (b : ascii) : string * option Partial :=
  let n := N_of_ascii b in
  if (n <=? 127)%N then (String b EmptyString, None)
  else if byte_in 194 223 b then
    (EmptyString,
     Some {| seen := String b EmptyString; more := 1; lo := 128; hi := 191 |})
  else if byte_in 224 239 b then
    (EmptyString,
     Some {| seen := String b EmptyString; more := 2;
             lo := if (n =? 224)%N then 160%N else 128%N;
             hi := if (n =? 237)%N then 159%N else 191%N |})
  else if byte_in 240 244 b then
    (EmptyString,
     Some {| seen := String b EmptyString; more := 3;
             lo := if (n =? 240)%N then 144%N else 128%N;
             hi := if (n =? 244)%N then 143%N else 191%N |})
  else (replacement, None).

(** The decoder on a byte: a byte that cannot continue the sequence under
    way ends it with U+FFFD and is then read as a first byte. *)
Definition decode_step (st : option Partial) (b : ascii) : string * option Partial :=
  match st with
  | None => decode_start b
  | Some p =>
      if byte_in (lo p) (hi p) b then
        match more p with
        | S (S m) =>
            (EmptyString,
             Some {| seen := seen p +:+ String b EmptyString; more := S m;
                     lo := 128; hi := 191 |})
        | _ => (seen p +:+ String b EmptyString, None)
        end
      else
        let (out, st') := decode_start b in (replacement +:+ out, st')
  end.

(** What the decoder has emitted over the bytes, and the sequence it is in
    the middle of at their end. *)
Fixpoint decode_out (st : option Partial) (bytes : string) : string :=
  match bytes with
  | EmptyString => EmptyString
  | String b rest =>
      fst (decode_step st b) +:+ decode_out (snd (decode_step st b)) rest
  end.

Fixpoint decode_state (st : option Partial) (bytes : string) : option Partial :=
  match bytes with
  | EmptyString => st
  | String b rest => decode_state (snd (decode_step st b)) rest
  end.

(** [data.toString()]: at the end of the chunk a sequence under way is cut
    short. *)
Definition toString (data : string) : string :=
  decode_out None data +:+
  match decode_state None data with
  | Some _ => replacement
  | None => EmptyString
  end.

(** *** The client object and the promises it has created *)

Inductive Settlement : Type :=
| Unsettled
| Resolved (response : JsValue)
| RejectedWith (message : string).

(** Who awaits the promise of a [sendRequest]: [initialize], which sets
    [initialized] when the response has no error, or a caller outside the
    object. *)
Inductive Awaiter : Type := AwaitInitialize | AwaitCaller.

(** One per [new Promise] of [sendRequest]: the [id] its closures captured,
    how the promise stands, and whether its [setTimeout] is still armed. *)
Record Call : Type := {
  call_id : Z;
  settlement : Settlement;
  timer_armed : bool;
  awaiter : Awaiter
}.

Record Request : Type := {
  req_id : Z;
  req_method : string;
  req_params : JsValue
}.

(** The five fields of the object, then the runtime around it: the calls in
    creation order (a handler is the index of the call whose [resolve] it
    wraps), the requests written to each child's stdin, and the number of
    children spawned so far. *)
Record HybridMCPClient : Type := {
  server : option nat;
  messageId : Z;
  responseHandlers : gmap Z nat;
  buffer : string;
  initialized : bool;
  calls : list Call;
  stdin : list (nat * Request);
  spawned : nat
}.

Definition new : HybridMCPClient :=
  {| server := None; messageId := 0; responseHandlers := ∅; buffer := "";
     initialized := false; calls := []; stdin := []; spawned := 0 |}.

(** [++n] on the counter.  The counter is a double that starts at 0 and only
    ever takes this step, so it stays an integer between 0 and 2^53; there
    adding 1 is exact, except at 2^53 itself, where the sum rounds back to
    2^53. *)
Definition increment (n : Z) : Z :=
  if bool_decide (n < 2 ^ 53) then n + 1 else n.

Definition settle (k : nat) (s : Settlement) (cs : list Call) : list Call :=
  match cs !! k with
  | Some c =>
      match settlement c with
      | Unsettled =>
          <[k := {| call_id := call_id c; settlement := s;
                    timer_armed := timer_armed c; awaiter := awaiter c |}]> cs
      | _ => cs
      end
  | None => cs
  end.

Definition clearTimeout (k : nat) (cs : list Call) : list Call :=
  match cs !! k with
  | Some c =>
      <[k := {| call_id := call_id c; settlement := settlement c;
                timer_armed := false; awaiter := awaiter c |}]> cs
  | None => cs
  end.

(** The continuation of [initialize] after its [await], when the promise it
    awaits was pending and resolves with [response]. *)
Definition resumed (k : nat) (response : JsValue) (c : HybridMCPClient) : bool :=
  match calls c !! k with
  | Some call =>
      match settlement call, awaiter call with
      | Unsettled, AwaitInitialize =>
          if truthy (get_opt "error" response) then initialized c else true
      | _, _ => initialized c
      end
  | None => initialized c
  end.

(** The handler [sendRequest] registered for call [k], applied to
    [response], after [handleResponse] has taken it out of the table. *)
Definition runHandler (k : nat) (response : JsValue) (c : HybridMCPClient)
    (handlers : gmap Z nat) : HybridMCPClient :=
  {| server := server c;
     messageId := messageId c;
     responseHandlers := handlers;
     buffer := buffer c;
     initialized := resumed k response c;
     calls := settle k (Resolved response) (clearTimeout k (calls c));
     stdin := stdin c;
     spawned := spawned c |}.

(** [Map.has] and [Map.get] with a key that came out of a message: only a
    number is ever equal to a key of the table. *)
Definition handlerFor (id : JsValue) (c : HybridMCPClient) : option nat :=
  match id with
  | JNum n => responseHandlers c !! n
  | _ => None
  end.

Definition handleResponse (response : JsValue) (c : HybridMCPClient)
    : Res HybridMCPClient :=
  try! id := get "id" response in
  if truthy id then
    match id, handlerFor id c with
    | JNum n, Some k => Ok (runHandler k response c (delete n (responseHandlers c)))
    | _, _ => Ok c
    end
  else Ok c.

Definition set_buffer (b : string) (c : HybridMCPClient) : HybridMCPClient :=
  {| server := server c; messageId := messageId c;
     responseHandlers := responseHandlers c; buffer := b;
     initialized := initialized c; calls := calls c; stdin := stdin c;
     spawned := spawned c |}.

Definition cleanup (c : HybridMCPClient) : HybridMCPClient :=
  {| server := server c; messageId := 0; responseHandlers := ∅; buffer := "";
     initialized := false; calls := calls c; stdin := stdin c;
     spawned := spawned c |}.

(** [close()]: the child is killed and forgotten. *)
Definition close (c : HybridMCPClient) : HybridMCPClient :=
  let c := cleanup c in
  match server c with
  | Some _ =>
      {| server := None; messageId := messageId c;
         responseHandlers := responseHandlers c; buffer := buffer c;
         initialized := initialized c; calls := calls c; stdin := stdin c;
         spawned := spawned c |}
  | None => c
  end.

(** [connect()] up to its first [await]: the child is spawned and its
    listeners attached.  [initialize] follows a second later. *)
Definition connect (c : HybridMCPClient) : Res HybridMCPClient :=
  match server c with
  | Some _ => Throw (ThrownError "Client already connected")
  | None =>
      Ok {| server := Some (spawned c); messageId := messageId c;
            responseHandlers := responseHandlers c; buffer := buffer c;
            initialized := initialized c; calls := calls c; stdin := stdin c;
            spawned := S (spawned c) |}
  end.

(** [sendRequest], for the given awaiter of the promise it returns.  The
    result names the new call and the identifier it was given. *)
Definition sendRequest (method : string) (params : JsValue) (who : Awaiter)
    (c : HybridMCPClient) : Res (nat * Z * HybridMCPClient) :=
  match server c with
  | None => Throw (ThrownError "Client not connected")
  | Some child =>
      let id := increment (messageId c) in
      let k := length (calls c) in
      Ok (k, id,
          {| server := server c;
             messageId := id;
             responseHandlers := <[id := k]> (responseHandlers c);
             buffer := buffer c;
             initialized := initialized c;
             calls := calls c ++ [{| call_id := id; settlement := Unsettled;
                                     timer_armed := true; awaiter := who |}];
             stdin := stdin c ++ [(child, {| req_id := id; req_method := method;
                                             req_params := params |})];
             spawned := spawned c |})
  end.

Definition initializeParams : JsValue :=
  JObj [("protocolVersion", JStr "2024-11-05");
        ("capabilities",
         JObj [("tools", JObj [("list", JBool true); ("call", JBool true)])]);
        ("clientInfo",
         JObj [("name", JStr "HybridMCPClient"); ("version", JStr "1.0.0")])].

Definition initialize (c : HybridMCPClient) : Res (nat * Z * HybridMCPClient) :=
  sendRequest "initialize" initializeParams AwaitInitialize c.

(** The timer of call [k] fires. *)
Definition fireTimeout (k : nat) (c : HybridMCPClient) : HybridMCPClient :=
  match calls c !! k with
  | Some call =>
      if timer_armed call then
        let cs := clearTimeout k (calls c) in
        match responseHandlers c !! call_id call with
        | Some _ =>
            {| server := server c; messageId := messageId c;
               responseHandlers := delete (call_id call) (responseHandlers c);
               buffer := buffer c; initialized := initialized c;
               calls := settle k (RejectedWith "Request timeout") cs;
               stdin := stdin c; spawned := spawned c |}
        | None =>
            {| server := server c; messageId := messageId c;
               responseHandlers := responseHandlers c;
               buffer := buffer c; initialized := initialized c;
               calls := cs; stdin := stdin c; spawned := spawned c |}
        end
      else c
  | None => c
  end.

(** *** Reading the child's output *)

Section Reader.

(** [JSON.parse]: the value, or [None] when it throws a SyntaxError. *)
Variable JSON_parse : string -> option JsValue.

(** The body of the loop of [handleData]. *)
Definition handleLine (line : string) (c : HybridMCPClient) : HybridMCPClient :=
  if bool_decide (trim line = "") then c
  else
    match JSON_parse line with
    | Some response =>
        match handleResponse response c with
        | Ok c' => c'
        | Throw _ => c
        end
    | None => c
    end.

Definition handleData (data : string) (c : HybridMCPClient) : HybridMCPClient :=
  let lines := split_newline (buffer c +:+ data) in
  let c := set_buffer (List.last lines "") c in
  fold_left (fun c line => handleLine line c) (removelast lines) c.

(** The listener that [connect] puts on the child's stdout: each chunk is
    decoded by itself and handed to [handleData]. *)
Definition onData (data : string) (c : HybridMCPClient) : HybridMCPClient :=
  handleData (toString data) c.

(** *** The client over a process lifetime *)

Inductive Event : Type :=
| EvConnect
| EvInitialize
| EvSend (method : string) (params : JsValue)
| EvData (chunk : string)
| EvTimeout (call : nat)
| EvClose
| EvExit.

(** The state after the event and the identifier it allocated, if it is a
    send that did not throw.  An operation that throws leaves the object as
    it was. *)
Definition step (e : Event) (c : HybridMCPClient) : option Z * HybridMCPClient :=
  match e with
  | EvConnect =>
      match connect c with
      | Ok c' => (None, c')
      | Throw _ => (None, c)
      end
  | EvInitialize =>
      match initialize c with
      | Ok (_, id, c') => (Some id, c')
      | Throw _ => (None, c)
      end
  | EvSend method params =>
      match sendRequest method params AwaitCaller c with
      | Ok (_, id, c') => (Some id, c')
      | Throw _ => (None, c)
      end
  | EvData chunk => (None, handleData chunk c)
  | EvTimeout k => (None, fireTimeout k c)
  | EvClose => (None, close c)
  | EvExit => (None, cleanup c)
  end.

(** The identifiers allocated by the sends among [events], in order, and
    the state the events leave. *)
Fixpoint run (events : list Event) (c : HybridMCPClient) : list Z * HybridMCPClient :=
  match events with
  | [] => ([], c)
  | e :: rest =>
      let (allocated, c') := step e c in
      let (ids, c'') := run rest c' in
      (match allocated with Some id => id :: ids | None => ids end, c'')
  end.

End Reader.

(** *** Notions used to state the properties *)

(** The events that run [cleanup]: a [close] and the exit of a child. *)
Definition cleans (e : Event) : bool :=
  match e with
  | EvClose | EvExit => true
  | _ => false
  end.

Definition no_newline (s : string) : Prop := newline ∉ String.list_ascii_of_string s.

(** The lines, each followed by a newline, then [tail]. *)
Fixpoint framed (lines : list string) (tail : string) : string :=
  match lines with
  | [] => tail
  | line :: rest => line +:+ String newline (framed rest tail)
  end.

(** Call [k] is still waiting: a handler for it is in the table and its
    promise is unsettled. *)
Definition pending (k : nat) (c : HybridMCPClient) : Prop :=
  ∃ id call, responseHandlers c !! id = Some k ∧ calls c !! k = Some call ∧
             settlement call = Unsettled.

(** *** More of the client, and notions for its invariants *)

Definition isConnected (c : HybridMCPClient) : bool :=
  bool_decide (server c ≠ None) && initialized c.

(** Every handler in the table is the handler of a call that carries its
    identifier and whose promise is unsettled. *)
Definition handlers_ok (c : HybridMCPClient) : Prop :=
  ∀ id k, responseHandlers c !! id = Some k ->
    ∃ call, calls c !! k = Some call ∧ call_id call = id ∧
            settlement call = Unsettled.

(** Every call whose timer is armed is unsettled. *)
Definition timers_ok (c : HybridMCPClient) : Prop :=
  ∀ k call, calls c !! k = Some call -> timer_armed call = true ->
    settlement call = Unsettled.

(** From one list of calls to a later one: every call is still there with
    its identifier, and with its outcome if it had one. *)
Definition settled_kept (before after : list Call) : Prop :=
  ∀ k call, before !! k = Some call ->
    ∃ call', after !! k = Some call' ∧ call_id call' = call_id call ∧
             (settlement call ≠ Unsettled -> settlement call' = settlement call).

(** The chunk ends between two characters: the decoder is in the middle
    of no sequence at its end. *)
Definition ends_between_characters (data : string) : Prop :=
  decode_state None data = None.

(** A stand-in for [JSON.parse] in the examples: it reads the objects
    [{"id":n}], [n] in decimal digits, and rejects every other text. *)
Fixpoint digits (acc : Z) (s : string) : option Z :=
  match s with
  | String c rest =>
      match Ascii.is_nat c with
      | Some d => digits (10 * acc + Z.of_nat d) rest
      | None => if bool_decide (s = "}") then Some acc else None
      end
  | EmptyString => None
  end.

Definition parse_id_object (s : string) : option JsValue :=
  match s return option JsValue with
  | String "{" (String "034" (String "i" (String "d" (String "034" (String ":"
      (String c rest)))))) =>
      match Ascii.is_nat c with
      | Some _ => n ← digits 0 (String c rest); Some (JObj [("id", JNum n)])
      | None => None
      end
  | _ => None
  end.

End Client.

(** ** Sample data for the client examples *)

Module ClientSamples.

Import Client.

Definition quote : string := String "034" EmptyString.

(** The text [{"id":n}] for a one-digit [n]. *)
Definition idObject (digit : string) : string :=
  "{" +:+ quote +:+ "id" +:+ quote +:+ ":" +:+ digit +:+ "}".

(** Connected, with [initialize] (identifier 1) and a tool listing
    (identifier 2) on their way. *)
Definition twoPending : HybridMCPClient :=
  snd (run parse_id_object
         [EvConnect; EvInitialize; EvSend "tools/list" JUndefined] new).

(** The same after a chunk that ends in the middle of a message. *)
Definition midMessage : HybridMCPClient :=
  handleData parse_id_object ("{" +:+ quote +:+ "id") twoPending.

(** The rest of that message, a line of diagnostics, a whole message and
    the beginning of another one. *)
Definition chunk : string :=
  quote +:+ ":2}" +:+ String newline
    ("Server started" +:+ String newline
       (idObject "1" +:+ String newline ("{" +:+ quote +:+ "i"))).

(** A request, a close before any response, a reconnect and a second
    request: the two calls carry identifier 1, and the handler in the table
    is the one of the second. *)
Definition reusedId : HybridMCPClient :=
  snd (run parse_id_object
         [EvConnect; EvSend "tools/list" JUndefined; EvClose;
          EvConnect; EvSend "tools/call" JUndefined] new).

Definition firstCall : Call :=
  {| call_id := 1; settlement := Unsettled; timer_armed := true;
     awaiter := AwaitCaller |}.

(** A message with an é in it, cut by the end of a chunk between the two
    bytes of the é (195, 169). *)
Definition beforeCut : string :=
  "{" +:+ quote +:+ "id" +:+ quote +:+ ":1," +:+ quote +:+ "r" +:+ quote +:+
  ":" +:+ quote.

Definition firstHalf : string := beforeCut +:+ String "195" EmptyString.

Definition secondHalf : string := String "169" (quote +:+ "}").

Definition reconnect : list Event :=
  [EvConnect; EvInitialize; EvSend "tools/list" JUndefined;
   EvClose; EvConnect; EvInitialize].

End ClientSamples.

(** * Properties of the execution service *)

Module ServiceProps.

Import Service.

(** ** The sweep as a filter *)

Section Sweep.

Variable old : ExecutionSpec -> bool.

Local Abbreviation drop_old :=
  (fun (id : string) (spec : ExecutionSpec) (m : gmap string ExecutionSpec) =>
     if old spec then delete id m else m).

(** Deleting from [m0] while walking over [m] leaves an entry of [m0] in
    place unless the walk met it and found it old. *)
Lemma fold_delete_lookup (m0 m : gmap string ExecutionSpec) (id : string) :
  map_fold drop_old m0 m !! id =
  match m !! id with
  | Some spec => if old spec then None else m0 !! id
  | None => m0 !! id
  end.
Proof.
  revert id.
  apply (map_fold_weak_ind
           (fun r m => forall id, r !! id =
              match m !! id with
              | Some spec => if old spec then None else m0 !! id
              | None => m0 !! id
              end)).
  - intros id. by rewrite lookup_empty.
  - intros i x m' r Hfresh IH id. simpl.
    destruct (decide (i = id)) as [->|Hne].
    + rewrite lookup_insert_eq. specialize (IH id). rewrite Hfresh in IH.
      destruct (old x); [apply lookup_delete_eq | exact IH].
    + rewrite lookup_insert_ne by done.
      destruct (old x); [rewrite lookup_delete_ne by done|]; apply IH.
Qed.

Lemma fold_delete_self (m : gmap string ExecutionSpec) (id : string) :
  map_fold drop_old m m !! id =
  m !! id ≫= (fun spec => if old spec then None else Some spec).
Proof.
  rewrite fold_delete_lookup.
  destruct (m !! id) as [spec|] eqn:E; simpl; [|done].
  by destruct (old spec).
Qed.

End Sweep.

Lemma cleanupOldSpecs_lookup now maxAge st id :
  executions (cleanupOldSpecs now maxAge st) !! id =
  executions st !! id ≫=
    (fun spec => if too_old now (default DEFAULT_TTL maxAge) spec
                 then None else Some spec).
Proof.
  unfold cleanupOldSpecs; simpl.
  apply (fold_delete_self (too_old now (default DEFAULT_TTL maxAge))).
Qed.

Lemma cleanupOldSpecs_http_log now maxAge st :
  http_log (cleanupOldSpecs now maxAge st) = http_log st.
Proof. reflexivity. Qed.

(** ** What [executeSpec] does to the store *)

Lemma executeSpec_missing id outcome now st :
  executions st !! id = None ->
  executeSpec id outcome now st = (notFound id, st).
Proof. intros H. unfold executeSpec. by rewrite H. Qed.

Lemma executeSpec_found_store id outcome now st spec :
  executions st !! id = Some spec ->
  executions (snd (executeSpec id outcome now st)) =
    <[id := set_status (settled_status outcome) spec]> (executions st) ∧
  http_log (snd (executeSpec id outcome now st)) = http_log st ++ [request_url spec].
Proof.
  intros H. unfold executeSpec. rewrite H. split.
  - assert (Hmap : ∀ s, assign_status id s (assign_status id Executing (executions st)) =
                        <[id := set_status s spec]> (executions st)).
    { intros s. unfold assign_status. apply map_eq. intros k.
      destruct (decide (id = k)) as [<-|Hne].
      - by rewrite !lookup_alter_eq, H, lookup_insert_eq.
      - by rewrite !lookup_alter_ne, lookup_insert_ne. }
    destruct outcome; simpl; apply Hmap.
  - by destruct outcome.
Qed.

Lemma executeSpec_lookup_other id id' outcome now st :
  id ≠ id' ->
  executions (snd (executeSpec id outcome now st)) !! id' = executions st !! id'.
Proof.
  intros Hne. destruct (executions st !! id) as [spec|] eqn:E.
  - destruct (executeSpec_found_store id outcome now st spec E) as [-> _].
    by rewrite lookup_insert_ne.
  - by rewrite executeSpec_missing.
Qed.

Lemma executeSpec_dom id outcome now st :
  dom (executions (snd (executeSpec id outcome now st))) = dom (executions st).
Proof.
  destruct (executions st !! id) as [spec|] eqn:E.
  - destruct (executeSpec_found_store id outcome now st spec E) as [-> _].
    apply dom_insert_lookup_L. by exists spec.
  - by rewrite executeSpec_missing.
Qed.

Lemma executeSpec_timestamp id id' outcome now st :
  timestamp <$> executions (snd (executeSpec id outcome now st)) !! id' =
  timestamp <$> executions st !! id'.
Proof.
  destruct (decide (id = id')) as [<-|Hne].
  - destruct (executions st !! id) as [spec|] eqn:E.
    + destruct (executeSpec_found_store id outcome now st spec E) as [-> _].
      by rewrite lookup_insert_eq.
    + rewrite executeSpec_missing by done. simpl. by rewrite E.
  - by rewrite executeSpec_lookup_other.
Qed.

(** ** The result of [executeSpec] *)

(** C1. Whatever the identifier, the store and the outcome of the request,
    the result of [executeSpec] has no [data]: a successful one carries the
    identifier, the record count and the completion instant and no error;
    a failed one carries the identifier and an error description and
    neither count nor instant.  The result is built after the [await], and
    has no [data] whatever state the service is in by then. *)
Theorem executeSpec_never_returns_payload
    (id : string) (outcome : HttpOutcome) (now : Z) (st during : State) :
  let r := fst (executeSpec id outcome now st) in
  r_data (fst (executeSpec_settle id outcome now during)) = None ∧
  r_data r = None ∧
  r_executionId r = id ∧
  match r_status r with
  | RSuccess =>
      (∃ n, r_recordCount r = Some n) ∧ r_executedAt r = Some now ∧
      r_error r = None
  | RError =>
      (∃ description, r_error r = Some description) ∧
      r_recordCount r = None ∧ r_executedAt r = None
  end.
Proof.
  split; [by destruct outcome|].
  unfold executeSpec.
  destruct (executions st !! id) as [spec|]; [destruct outcome|]; simpl;
    eauto 10.
Qed.

(** C4. For an identifier that is not in the store, and so also for one
    that a sweep has just removed, [executeSpec] returns the not-found
    result (status error, description "Execution spec not found") as a
    value, and the service state is the very one it started from. *)
Theorem executeSpec_unknown_id_not_found
    (id : string) (outcome : HttpOutcome) (now : Z) (st : State)
    (swept : State) (old : ExecutionSpec) (at_sweep : Z) (maxAge : option Z) :
  executions st !! id = None ->
  executions swept !! id = Some old ->
  at_sweep - timestamp old > default DEFAULT_TTL maxAge ->
  (executeSpec id outcome now st = (notFound id, st) ∧
   r_status (notFound id) = RError ∧
   r_error (notFound id) = Some "Execution spec not found") ∧
  executeSpec id outcome now (cleanupOldSpecs at_sweep maxAge swept) =
    (notFound id, cleanupOldSpecs at_sweep maxAge swept).
Proof.
  intros Hnone Hold Hage. split.
  - split; [by apply executeSpec_missing | done].
  - apply executeSpec_missing. rewrite cleanupOldSpecs_lookup, Hold. simpl.
    unfold too_old. by rewrite bool_decide_eq_true_2.
Qed.


(** ** The sweep *)

(** C6. After [cleanupOldSpecs] an identifier is in the store exactly when
    it was there before with an age, the sweep's [now] minus the spec's
    creation timestamp, that does not exceed [maxAge] (the 15 minutes
    default when the argument is left out), and then with the same spec.
    The age has no other input: an [executeSpec] in between, the one call
    that touches a stored spec, changes no timestamp, so the sweep removes
    the same identifiers with or without it. *)
Theorem cleanupOldSpecs_removes_exactly_the_old
    (now : Z) (maxAge : option Z) (st : State) (id : string)
    (read : string) (outcome : HttpOutcome) (at_read : Z) :
  executions (cleanupOldSpecs now maxAge st) !! id =
    executions st !! id ≫=
      (fun spec =>
         if bool_decide (now - timestamp spec > default DEFAULT_TTL maxAge)
         then None else Some spec) ∧
  timestamp <$> executions (snd (executeSpec read outcome at_read st)) !! id =
    timestamp <$> executions st !! id ∧
  dom (executions
         (cleanupOldSpecs now maxAge (snd (executeSpec read outcome at_read st)))) =
    dom (executions (cleanupOldSpecs now maxAge st)).
Proof.
  split; [apply cleanupOldSpecs_lookup|].
  split; [apply executeSpec_timestamp|].
  apply set_eq. intros k. rewrite !elem_of_dom, !cleanupOldSpecs_lookup.
  pose proof (executeSpec_timestamp read k outcome at_read st) as Ht.
  destruct (executions (snd (executeSpec read outcome at_read st)) !! k) as [a|],
           (executions st !! k) as [b|]; simpl in *; try done.
  assert (timestamp a = timestamp b) as Hab by congruence.
  unfold too_old. rewrite Hab. by case_bool_decide.
Qed.


(** ** Generating specs *)

Lemma buildApiCall_query_dataset (args : JsValue) :
  args ≠ JUndefined -> args ≠ JNull ->
  buildApiCall "query_dataset" args =
  Ok {| method := "GET";
        url := ABS_API_BASE +:+ "/rest/data/" +:+
               to_string (get_opt "datasetId" args) +:+ "/all";
        params := Some [("format", "jsondata");
                        ("dimensionAtObservation", "AllDimensions")];
        headers := None |}.
Proof. intros H1 H2. by destruct args. Qed.

Lemma buildApiCall_unknown (tool : string) (args : JsValue) :
  tool ≠ "query_dataset" ->
  buildApiCall tool args = Throw (ThrownError ("Unknown tool: " +:+ tool)).
Proof. intros H. unfold buildApiCall. by rewrite bool_decide_eq_false_2. Qed.

Lemma has_datasetId_object (args : JsValue) :
  has_datasetId args -> args ≠ JUndefined ∧ args ≠ JNull.
Proof. intros (s & H & _). by destruct args. Qed.

Lemma generateExecutionSpec_valid uuid now request st :
  valid_request request ->
  ∃ call,
    buildApiCall (q_toolName request) (q_parameters request) = Ok call ∧
    generateExecutionSpec uuid now request st =
    Ok ({| executionId := uuid;
           toolName := q_toolName request;
           parameters := q_parameters request;
           apiCall := call;
           timestamp := now;
           status := Pending;
           ttl := Some DEFAULT_TTL |},
        {| executions :=
             <[uuid := {| executionId := uuid;
                          toolName := q_toolName request;
                          parameters := q_parameters request;
                          apiCall := call;
                          timestamp := now;
                          status := Pending;
                          ttl := Some DEFAULT_TTL |}]> (executions st);
           http_log := http_log st |}).
Proof.
  intros [Htool Hargs]. apply has_datasetId_object in Hargs as [H1 H2].
  unfold generateExecutionSpec. rewrite Htool.
  rewrite buildApiCall_query_dataset by done. eauto.
Qed.

Lemma generateExecutionSpec_id uuid now request st spec st' :
  generateExecutionSpec uuid now request st = Ok (spec, st') ->
  executionId spec = uuid.
Proof.
  unfold generateExecutionSpec.
  destruct (buildApiCall _ _); simpl; [|done]. by intros [= <- _].
Qed.

(** ** Runs *)

Lemma service_run_cons c calls st :
  run (c :: calls) st =
  ((step c st).1 :: (run calls (step c st).2).1, (run calls (step c st).2).2).
Proof. simpl. destruct (step c st), (run calls _); done. Qed.

(** The reply to the [i]-th call is the one [step] gives in the state the
    calls before it have left. *)
Lemma run_reply calls st i c :
  calls !! i = Some c ->
  (run calls st).1 !! i = Some (step c (run (take i calls) st).2).1.
Proof.
  revert st i. induction calls as [|c0 calls IH]; intros st i Hc; [done|].
  rewrite service_run_cons. destruct i as [|i]; simpl in Hc.
  - by injection Hc as ->.
  - change (take (S i) (c0 :: calls)) with (c0 :: take i calls).
    rewrite service_run_cons. simpl. by apply IH.
Qed.

Lemma run_reply_inv calls st i reply :
  (run calls st).1 !! i = Some reply ->
  ∃ c, calls !! i = Some c ∧ reply = (step c (run (take i calls) st).2).1.
Proof.
  revert st i. induction calls as [|c0 calls IH]; intros st i Hr; [done|].
  rewrite service_run_cons in Hr. destruct i as [|i]; simpl in Hr.
  - injection Hr as <-. by exists c0.
  - apply IH in Hr as (c & Hc & ->). exists c. split; [done|].
    change (take (S i) (c0 :: calls)) with (c0 :: take i calls).
    by rewrite service_run_cons.
Qed.

Lemma step_spec_draw c st spec :
  (step c st).1 = ReplySpec spec -> draw c = Some (executionId spec).
Proof.
  destruct c as [uuid now request|id outcome now|now maxAge]; simpl.
  - destruct (generateExecutionSpec uuid now request st) as [[spec' st']|] eqn:E;
      simpl; [|done].
    intros [= ->]. by rewrite (generateExecutionSpec_id _ _ _ _ _ _ E).
  - by destruct (executeSpec id outcome now st).
  - done.
Qed.


(** C3, as the code has it.  [generateExecutionSpec] checks the tool name
    only: any name but query_dataset makes it throw "Unknown tool: <name>".
    The [datasetId] check is the handler's: [handleQueryDataset] throws
    "datasetId is required and must be a string" for arguments without a
    non-empty string [datasetId], before any spec is built; and with such
    a [datasetId] it returns a pending spec whose URL names the dataset. *)
Theorem tool_checked_by_service_datasetId_by_handler
    (uuid : string) (now : Z) (request : ExecutionRequest) (st : State)
    (bad good : JsValue) :
  q_toolName request ≠ "query_dataset" ->
  ¬ has_datasetId bad ->
  has_datasetId good ->
  generateExecutionSpec uuid now request st =
    Throw (ThrownError ("Unknown tool: " +:+ q_toolName request)) ∧
  Server.handleQueryDataset uuid now bad st =
    Throw (ThrownError "datasetId is required and must be a string") ∧
  ∃ response st',
    Server.handleQueryDataset uuid now good st = Ok (response, st') ∧
    status (Server._meta response) = Pending ∧
    url (apiCall (Server._meta response)) =
      ABS_API_BASE +:+ "/rest/data/" +:+ to_string (get_opt "datasetId" good) +:+ "/all" ∧
    executions st' !! uuid = Some (Server._meta response).
Proof.
  intros Htool Hbad Hgood. split; [|split].
  - unfold generateExecutionSpec. by rewrite buildApiCall_unknown.
  - unfold Server.handleQueryDataset.
    destruct (get_opt "datasetId" bad) as [| |b|n|s|l|l] eqn:E; simpl;
      rewrite ?orb_true_r; try reflexivity.
    case_bool_decide as Hs; simpl; [reflexivity|].
    destruct Hbad. by exists s.
  - unfold Server.handleQueryDataset.
    destruct (generateExecutionSpec_valid uuid now
                {| q_toolName := "query_dataset"; q_parameters := good |} st)
      as (call & Hcall & ->); [by split|].
    pose proof Hgood as (s & Hs & Hne).
    rewrite Hs. simpl. rewrite bool_decide_eq_false_2 by done. simpl.
    eexists _, _. split; [done|]. simpl.
    apply has_datasetId_object in Hgood as [H1 H2].
    simpl in Hcall. rewrite buildApiCall_query_dataset in Hcall by done.
    injection Hcall as <-. simpl. rewrite Hs.
    split; [done|split; [done|apply lookup_insert_eq]].
Qed.

(** ** The properties at sample inputs *)

Import Samples.

Example generate_then_execute :
  ∃ spec st,
    generateExecutionSpec "7d1f" 1000 queryX fresh = Ok (spec, st) ∧
    status spec = Pending ∧
    url (apiCall spec) = "https://data.api.abs.gov.au/rest/data/X/all" ∧
    fst (executeSpec "7d1f" (Fulfilled twoObservations) 2000 st) =
      {| r_executionId := "7d1f"; r_status := RSuccess;
         r_recordCount := Some 2; r_data := None; r_error := None;
         r_executedAt := Some 2000 |} ∧
    http_log (snd (executeSpec "7d1f" (Fulfilled twoObservations) 2000 st)) =
      ["https://data.api.abs.gov.au/rest/data/X/all?format=jsondata&dimensionAtObservation=AllDimensions"].
Proof. eexists _, _. repeat split. Qed.

Example sweep_three_specs :
  dom (executions (cleanupOldSpecs 10000000 (Some 600000) threeSpecs)) =
  ({["new"; "mid"]} : gset string).
Proof. by compute_done. Qed.

Example sweep_at_the_threshold :
  executions (cleanupOldSpecs 900000 None (oneSpec "7d1f" 0)) !! "7d1f" =
    Some (specX "7d1f" 0) ∧
  executions (cleanupOldSpecs 900001 None (oneSpec "7d1f" 0)) !! "7d1f" = None.
Proof. split; reflexivity. Qed.

Lemma executeSpec_unknown_id_not_found_witness :
  (executeSpec "7d1f" (Fulfilled twoObservations) 5 fresh =
     (notFound "7d1f", fresh) ∧
   r_status (notFound "7d1f") = RError ∧
   r_error (notFound "7d1f") = Some "Execution spec not found") ∧
  executeSpec "7d1f" (Fulfilled twoObservations) 5
      (cleanupOldSpecs 1000000 None (oneSpec "7d1f" 0)) =
    (notFound "7d1f", cleanupOldSpecs 1000000 None (oneSpec "7d1f" 0)).
Proof.
  apply (executeSpec_unknown_id_not_found "7d1f" (Fulfilled twoObservations) 5
           fresh (oneSpec "7d1f" 0) (specX "7d1f" 0) 1000000 None).
  - reflexivity.
  - reflexivity.
  - vm_compute. reflexivity.
Defined.





(** C3 fails for the service as stated: asked for query_dataset without any
    [datasetId], [generateExecutionSpec] builds and stores a spec, for the
    dataset called undefined. *)
Lemma generateExecutionSpec_accepts_missing_datasetId :
  ¬ has_datasetId (q_parameters queryNothing) ∧
  ∃ spec st,
    generateExecutionSpec "7d1f" 1000 queryNothing fresh = Ok (spec, st) ∧
    url (apiCall spec) = "https://data.api.abs.gov.au/rest/data/undefined/all" ∧
    executions st !! "7d1f" = Some spec.
Proof.
  split.
  - intros (s & Hs & _). discriminate Hs.
  - eexists _, _. repeat split.
Qed.

Lemma tool_checked_by_service_datasetId_by_handler_witness :
  generateExecutionSpec "7d1f" 1000 listFlows fresh =
    Throw (ThrownError "Unknown tool: list_dataflows") ∧
  Server.handleQueryDataset "7d1f" 1000 (JObj [("datasetId", JStr "")]) fresh =
    Throw (ThrownError "datasetId is required and must be a string") ∧
  ∃ response st',
    Server.handleQueryDataset "7d1f" 1000 (q_parameters queryX) fresh =
      Ok (response, st') ∧
    status (Server._meta response) = Pending ∧
    url (apiCall (Server._meta response)) =
      "https://data.api.abs.gov.au/rest/data/X/all" ∧
    executions st' !! "7d1f" = Some (Server._meta response).
Proof.
  apply (tool_checked_by_service_datasetId_by_handler "7d1f" 1000 listFlows fresh
           (JObj [("datasetId", JStr "")]) (q_parameters queryX)).
  - discriminate.
  - intros (s & Hs & Hne). injection Hs as <-. by destruct Hne.
  - exists "X". by split.
Defined.

End ServiceProps.

(** * Properties of the client *)

Module ClientProps.

Import Client.

(** ** Splitting into lines *)

Lemma append_assoc (a b c : string) : (a +:+ b) +:+ c = a +:+ (b +:+ c).
Proof.
  induction a as [|x a IH]; [done|].
  change (String x ((a +:+ b) +:+ c) = String x (a +:+ (b +:+ c))).
  by rewrite IH.
Qed.

Lemma split_newline_nonempty (s : string) : split_newline s ≠ [].
Proof.
  destruct s as [|c s]; simpl; [done|].
  case_bool_decide; [done|]. by destruct (split_newline s).
Qed.

Lemma split_newline_cons_other (c : ascii) (s : string) :
  c ≠ newline ->
  split_newline (String c s) =
  String c (List.hd EmptyString (split_newline s)) :: List.tl (split_newline s).
Proof.
  intros Hc. simpl. rewrite bool_decide_eq_false_2 by done.
  pose proof (split_newline_nonempty s). by destruct (split_newline s).
Qed.

(** Splitting a concatenation: the complete lines of the first part, then
    the split of its unfinished line continued by the second part. *)
Lemma split_newline_app (a b : string) :
  split_newline (a +:+ b) =
  removelast (split_newline a) ++
  split_newline (List.last (split_newline a) EmptyString +:+ b).
Proof.
  induction a as [|c a IH]; [done|].
  pose proof (split_newline_nonempty a) as Hne.
  change (String c a +:+ b) with (String c (a +:+ b)).
  destruct (decide (c = newline)) as [->|Hc].
  - simpl. rewrite IH. by destruct (split_newline a).
  - rewrite !split_newline_cons_other by done. rewrite IH.
    destruct (split_newline a) as [|seg [|seg' segs]]; [done| |].
    + cbn [removelast List.last hd tail app].
      change (String c seg +:+ b) with (String c (seg +:+ b)).
      by rewrite split_newline_cons_other.
    + done.
Qed.

Lemma split_newline_whole (s : string) :
  no_newline s -> split_newline s = [s].
Proof.
  unfold no_newline. induction s as [|c s IH]; simpl; [done|].
  intros Hs. apply not_elem_of_cons in Hs as [Hc Hs].
  rewrite bool_decide_eq_false_2 by congruence. by rewrite IH.
Qed.

Lemma split_newline_line (line rest : string) :
  no_newline line ->
  split_newline (line +:+ String newline rest) = line :: split_newline rest.
Proof.
  unfold no_newline. induction line as [|c line IH]; intros Hline; [done|].
  simpl in Hline. apply not_elem_of_cons in Hline as [Hc Hline].
  change (String c line +:+ String newline rest)
    with (String c (line +:+ String newline rest)).
  rewrite split_newline_cons_other by congruence. by rewrite IH.
Qed.

Lemma split_newline_framed (lines : list string) (tail : string) :
  Forall no_newline lines -> no_newline tail ->
  split_newline (framed lines tail) = lines ++ [tail].
Proof.
  intros Hlines Htail. induction Hlines as [|line lines Hline _ IH]; simpl.
  - by apply split_newline_whole.
  - by rewrite split_newline_line, IH.
Qed.

(** ** Lines and the buffer *)

Section Reader.

Variable JSON_parse : string -> option JsValue.

Local Abbreviation handleLine := (Client.handleLine JSON_parse).
Local Abbreviation handleData := (Client.handleData JSON_parse).
Local Abbreviation handleLines :=
  (fold_left (fun c line => Client.handleLine JSON_parse line c)).

Lemma handleResponse_set_buffer response b c :
  handleResponse response (set_buffer b c) =
  match handleResponse response c with
  | Ok c' => Ok (set_buffer b c')
  | Throw e => Throw e
  end.
Proof.
  unfold handleResponse. destruct (get "id" response) as [id|]; simpl; [|done].
  destruct (truthy id); [|done].
  destruct id; try done. simpl. by destruct (responseHandlers c !! n).
Qed.

Lemma handleLine_set_buffer line b c :
  handleLine line (set_buffer b c) = set_buffer b (handleLine line c).
Proof.
  unfold Client.handleLine. case_bool_decide; [done|].
  destruct (JSON_parse line) as [response|]; [|done].
  rewrite handleResponse_set_buffer. by destruct (handleResponse response c).
Qed.

Lemma handleLines_set_buffer lines b c :
  handleLines lines (set_buffer b c) = set_buffer b (handleLines lines c).
Proof.
  revert c. induction lines as [|line lines IH]; intros c; simpl; [done|].
  by rewrite handleLine_set_buffer, IH.
Qed.

Lemma handleResponse_fields response c c' :
  handleResponse response c = Ok c' ->
  buffer c' = buffer c ∧ messageId c' = messageId c ∧ server c' = server c.
Proof.
  unfold handleResponse. destruct (get "id" response) as [id|]; simpl; [|done].
  destruct (truthy id); [|by intros [= <-]].
  destruct id; try by intros [= <-].
  simpl. destruct (responseHandlers c !! n); by intros [= <-].
Qed.

Lemma handleLine_fields line c :
  buffer (handleLine line c) = buffer c ∧
  messageId (handleLine line c) = messageId c ∧
  server (handleLine line c) = server c.
Proof.
  unfold Client.handleLine. case_bool_decide; [done|].
  destruct (JSON_parse line) as [response|]; [|done].
  destruct (handleResponse response c) as [c'|] eqn:E; [|done].
  by apply handleResponse_fields in E.
Qed.

Lemma handleLines_fields lines c :
  buffer (handleLines lines c) = buffer c ∧
  messageId (handleLines lines c) = messageId c ∧
  server (handleLines lines c) = server c.
Proof.
  revert c. induction lines as [|line lines IH]; intros c; simpl; [done|].
  destruct (IH (handleLine line c)) as (-> & -> & ->). apply handleLine_fields.
Qed.

Lemma set_buffer_set_buffer b b' c :
  set_buffer b (set_buffer b' c) = set_buffer b c.
Proof. done. Qed.

Lemma handleData_fields data c :
  messageId (handleData data c) = messageId c ∧
  server (handleData data c) = server c.
Proof.
  unfold Client.handleData.
  destruct (handleLines_fields
              (removelast (split_newline (buffer c +:+ data)))
              (set_buffer (List.last (split_newline (buffer c +:+ data)) EmptyString) c))
    as (_ & -> & ->).
  done.
Qed.

(** Feeding two chunks one after the other is feeding their concatenation. *)
Lemma handleData_app data more c :
  handleData more (handleData data c) = handleData (data +:+ more) c.
Proof.
  unfold Client.handleData at 2 3.
  rewrite <- append_assoc, (split_newline_app (buffer c +:+ data) more).
  set (first := split_newline (buffer c +:+ data)).
  set (rest := split_newline (List.last first EmptyString +:+ more)).
  assert (Hrest : rest ≠ []) by apply split_newline_nonempty.
  rewrite removelast_app by done.
  rewrite fold_left_app.
  replace (List.last (removelast first ++ rest) EmptyString)
    with (List.last rest EmptyString).
  2:{ clear -Hrest. induction (removelast first) as [|x l IH]; [done|].
      simpl. rewrite <- IH. destruct (l ++ rest) eqn:E; [|done].
      apply app_eq_nil in E as [_ ?]. done. }
  unfold Client.handleData.
  rewrite !handleLines_set_buffer.
  change (buffer (set_buffer (List.last first EmptyString)
                    (handleLines (removelast first) c)))
    with (List.last first EmptyString).
  fold rest. apply set_buffer_set_buffer.
Qed.

(** ** The message counter *)

Lemma increment_bounds n : n <= increment n <= n + 1.
Proof. unfold increment. case_bool_decide; lia. Qed.

Lemma increment_exact n : n < 2 ^ 53 -> increment n = n + 1.
Proof. intros H. unfold increment. by rewrite bool_decide_eq_true_2. Qed.

Lemma fireTimeout_messageId k c : messageId (fireTimeout k c) = messageId c.
Proof.
  unfold fireTimeout. destruct (calls c !! k) as [call|]; [|done].
  destruct (timer_armed call); [|done].
  by destruct (responseHandlers c !! call_id call).
Qed.

(** An event that does not clean up never lowers the counter, and a send
    below 2^53 moves it up by one, to the identifier it allocates. *)
Lemma step_messageId e c :
  cleans e = false ->
  messageId c <= messageId (snd (step JSON_parse e c)) <= messageId c + 1 ∧
  ∀ id, fst (step JSON_parse e c) = Some id ->
        messageId (snd (step JSON_parse e c)) = id ∧
        (messageId c < 2 ^ 53 -> id = messageId c + 1).
Proof.
  pose proof (increment_bounds (messageId c)) as Hb.
  pose proof (increment_exact (messageId c)) as He.
  destruct e as [| |method params|chunk|k| |]; simpl; try done; intros _.
  - unfold connect. destruct (server c); simpl; split; (lia || done).
  - unfold initialize, sendRequest. destruct (server c); simpl; split;
      try lia; try done. by intros id [= <-].
  - unfold sendRequest. destruct (server c); simpl; split;
      try lia; try done. by intros id [= <-].
  - destruct (handleData_fields chunk c) as [-> _]. split; [lia|done].
  - rewrite fireTimeout_messageId. split; [lia|done].
Qed.

Lemma client_run_cons e events c :
  run JSON_parse (e :: events) c =
  (match fst (step JSON_parse e c) with
   | Some id => id :: fst (run JSON_parse events (snd (step JSON_parse e c)))
   | None => fst (run JSON_parse events (snd (step JSON_parse e c)))
   end,
   snd (run JSON_parse events (snd (step JSON_parse e c)))).
Proof.
  simpl. destruct (step JSON_parse e c) as [allocated c']. simpl.
  by destruct (run JSON_parse events c').
Qed.

Lemma run_increasing events c :
  Forall (fun e => cleans e = false) events ->
  messageId c + Z.of_nat (length events) <= 2 ^ 53 ->
  Forall (fun id => messageId c < id) (fst (run JSON_parse events c)) ∧
  StronglySorted Z.lt (fst (run JSON_parse events c)).
Proof.
  intros Hclean. revert c.
  induction Hclean as [|e events He _ IH]; intros c Hbound.
  - split; constructor.
  - rewrite client_run_cons. simpl.
    destruct (step_messageId e c He) as [Hm Hid].
    simpl length in Hbound.
    destruct (IH (snd (step JSON_parse e c))) as [Hgt Hsorted]; [lia|].
    destruct (fst (step JSON_parse e c)) as [id|].
    + destruct (Hid id eq_refl) as [Hnew Hexact].
      rewrite Hnew in Hgt. split.
      * constructor; [lia|]. eapply Forall_impl; [exact Hgt|]. simpl. lia.
      * by constructor.
    + split; [|done]. eapply Forall_impl; [exact Hgt|]. simpl. lia.
Qed.

(** C7, as the code has it.  Between two cleanups, and as long as the
    counter is below 2^53, the identifiers that sends allocate are strictly
    increasing and above the counter they started from.  A cleanup, by
    [close] or at the exit of the child, sets the counter back to 0: the
    first send after a close and a reconnect gets identifier 1 again. *)
Theorem ids_increase_until_cleanup
    (events : list Event) (c : HybridMCPClient)
    (method : string) (params : JsValue) :
  Forall (fun e => cleans e = false) events ->
  messageId c + Z.of_nat (length events) <= 2 ^ 53 ->
  StronglySorted Z.lt (fst (run JSON_parse events c)) ∧
  Forall (fun id => messageId c < id) (fst (run JSON_parse events c)) ∧
  messageId (cleanup c) = 0 ∧
  fst (run JSON_parse [EvClose; EvConnect; EvSend method params] c) = [1].
Proof.
  intros Hclean Hbound.
  destruct (run_increasing events c Hclean Hbound) as [Hgt Hsorted].
  split; [done|]. split; [done|]. split; [done|].
  simpl. unfold close, cleanup. simpl. by destruct (server c).
Qed.

End Reader.

(** C8, as the code has it.  [close] forgets the child, empties the handler
    table and the buffer and resets the two other fields; it settles no
    call.  A call that was waiting stays as it was, and when its timer fires
    on the closed client there is no handler left for it to reject. *)
Theorem close_clears_state_settles_no_call
    (c : HybridMCPClient) (k : nat) (call : Call) :
  calls c !! k = Some call ->
  (server (close c) = None ∧ messageId (close c) = 0 ∧
   responseHandlers (close c) = ∅ ∧ buffer (close c) = EmptyString ∧
   initialized (close c) = false) ∧
  calls (close c) = calls c ∧
  settlement <$> calls (fireTimeout k (close c)) !! k = Some (settlement call).
Proof.
  intros Hcall.
  assert (Hclosed : (server (close c) = None ∧ messageId (close c) = 0 ∧
            responseHandlers (close c) = ∅ ∧ buffer (close c) = EmptyString ∧
            initialized (close c) = false) ∧ calls (close c) = calls c).
  { unfold close, cleanup. simpl. by destruct (server c). }
  destruct Hclosed as [Hfields Hcalls]. split; [done|]. split; [done|].
  destruct Hfields as (_ & _ & Hhandlers & _ & _).
  unfold fireTimeout. rewrite Hcalls, Hcall, Hhandlers, lookup_empty.
  destruct (timer_armed call); simpl.
  - unfold clearTimeout. rewrite Hcall, list_lookup_insert_eq; [done|].
    by apply lookup_lt_Some with call.
  - by rewrite Hcalls, Hcall.
Qed.

(** ** The properties at sample inputs *)

Import ClientSamples.

Example split_message_is_reassembled :
  settlement <$> calls (handleData parse_id_object chunk midMessage) !! 1%nat =
    Some (Resolved (JObj [("id", JNum 2)])) ∧
  settlement <$> calls (handleData parse_id_object chunk midMessage) !! 0%nat =
    Some (Resolved (JObj [("id", JNum 1)])) ∧
  initialized (handleData parse_id_object chunk midMessage) = true ∧
  responseHandlers (handleData parse_id_object chunk midMessage) = ∅.
Proof. repeat split; by compute_done. Qed.

(** C7 fails as stated: a close followed by a reconnect hands out identifier
    1 a second time. *)
Lemma ids_reused_after_close :
  fst (run parse_id_object reconnect new) = [1; 2; 1] ∧
  ¬ NoDup (fst (run parse_id_object reconnect new)) ∧
  ¬ StronglySorted Z.lt (fst (run parse_id_object reconnect new)).
Proof.
  assert (H : fst (run parse_id_object reconnect new) = [1; 2; 1])
    by reflexivity.
  rewrite H. split; [done|]. split.
  - intros Hnd. apply NoDup_cons in Hnd as [Hnot _]. apply Hnot. set_solver.
  - intros Hs. apply StronglySorted_cons in Hs as [Hall _].
    apply Forall_cons in Hall as [_ Hall]. apply Forall_cons in Hall as [Hlt _].
    lia.
Qed.

Lemma ids_increase_until_cleanup_witness :
  StronglySorted Z.lt
    (fst (run parse_id_object
            [EvSend "tools/list" JUndefined; EvData chunk;
             EvSend "tools/call" JUndefined] midMessage)) ∧
  Forall (fun id => messageId midMessage < id)
    (fst (run parse_id_object
            [EvSend "tools/list" JUndefined; EvData chunk;
             EvSend "tools/call" JUndefined] midMessage)) ∧
  messageId (cleanup midMessage) = 0 ∧
  fst (run parse_id_object
         [EvClose; EvConnect; EvSend "tools/list" JUndefined] midMessage) = [1].
Proof.
  apply (ids_increase_until_cleanup parse_id_object
           [EvSend "tools/list" JUndefined; EvData chunk;
            EvSend "tools/call" JUndefined] midMessage "tools/list" JUndefined).
  - repeat constructor.
  - vm_compute. discriminate.
Defined.

(** C8 fails as stated: a call that is waiting when the client is closed is
    not rejected; its promise is unsettled after [close], and still is when
    its timer has fired. *)
Lemma close_leaves_call_unsettled :
  pending 1 twoPending ∧
  settlement <$> calls (close twoPending) !! 1%nat = Some Unsettled ∧
  settlement <$> calls (fireTimeout 1 (close twoPending)) !! 1%nat =
    Some Unsettled.
Proof.
  split; [|split; reflexivity].
  exists 2, {| call_id := 2; settlement := Unsettled; timer_armed := true;
               awaiter := AwaitCaller |}.
  repeat split.
Qed.

Lemma close_clears_state_settles_no_call_witness :
  (server (close twoPending) = None ∧ messageId (close twoPending) = 0 ∧
   responseHandlers (close twoPending) = ∅ ∧
   buffer (close twoPending) = EmptyString ∧
   initialized (close twoPending) = false) ∧
  calls (close twoPending) = calls twoPending ∧
  settlement <$> calls (fireTimeout 1 (close twoPending)) !! 1%nat =
    Some Unsettled.
Proof.
  apply (close_clears_state_settles_no_call twoPending 1
           {| call_id := 2; settlement := Unsettled; timer_armed := true;
              awaiter := AwaitCaller |}).
  reflexivity.
Defined.

End ClientProps.

(** * Further properties of the service *)

Module ServiceMore.

Import Service ServiceProps.

(** ** What the store holds *)

Lemma well_stored_set_status id s spec :
  well_stored id spec -> well_stored id (set_status s spec).
Proof. by intros (? & ? & ? & ?). Qed.

Lemma generateExecutionSpec_shape uuid now request st spec st' :
  generateExecutionSpec uuid now request st = Ok (spec, st') ->
  well_stored uuid spec ∧ status spec = Pending ∧ timestamp spec = now ∧
  parameters spec = q_parameters request ∧
  st' = {| executions := <[uuid := spec]> (executions st);
           http_log := http_log st |}.
Proof.
  unfold generateExecutionSpec.
  destruct (buildApiCall _ _) as [call|] eqn:Hcall; simpl; [|done].
  intros [= <- <-].
  assert (q_toolName request = "query_dataset") as Htool.
  { unfold buildApiCall in Hcall. by case_bool_decide. }
  repeat split; simpl; done.
Qed.

Lemma executeSpec_lookup id id' outcome now st :
  executions (snd (executeSpec id outcome now st)) !! id' =
  (if bool_decide (id = id') then set_status (settled_status outcome) else λ s, s)
    <$> executions st !! id'.
Proof.
  case_bool_decide as Hid.
  - subst id'. destruct (executions st !! id) as [spec|] eqn:E.
    + destruct (executeSpec_found_store id outcome now st spec E) as [-> _].
      by rewrite lookup_insert_eq.
    + rewrite executeSpec_missing by done. simpl. by rewrite E.
  - rewrite executeSpec_lookup_other by done. by destruct (executions st !! id').
Qed.

Lemma step_store_ok c st : store_ok st -> store_ok (snd (step c st)).
Proof.
  intros Hok. destruct c as [uuid now request|id outcome now|now maxAge]; simpl.
  - destruct (generateExecutionSpec uuid now request st) as [[spec st']|] eqn:E;
      simpl; [|done].
    apply generateExecutionSpec_shape in E as (Hspec & _ & _ & _ & ->).
    intros id s. simpl. destruct (decide (uuid = id)) as [<-|Hne].
    + rewrite lookup_insert_eq. by intros [= <-].
    + rewrite lookup_insert_ne by done. apply Hok.
  - destruct (executeSpec id outcome now st) as [result st'] eqn:E. simpl.
    replace st' with (snd (executeSpec id outcome now st)) by by rewrite E.
    intros id' s. rewrite executeSpec_lookup.
    destruct (executions st !! id') as [s0|] eqn:E0; simpl; [|done].
    intros [= <-]. case_bool_decide; [apply well_stored_set_status|]; by apply Hok.
  - intros id s. rewrite cleanupOldSpecs_lookup.
    destruct (executions st !! id) as [s0|] eqn:E0; simpl; [|done].
    destruct (too_old _ _ s0); [done|]. intros [= <-]. by apply Hok.
Qed.

Lemma service_run_snd_cons c calls st :
  snd (run (c :: calls) st) = snd (run calls (snd (step c st))).
Proof. by rewrite service_run_cons. Qed.

(** X1. Whatever calls are made on a service from its construction on,
    every spec in its store sits under its own identifier, names the tool
    query_dataset, has the descriptor [buildApiCall] gives for its
    parameters, and the default time to live. *)
Theorem every_stored_spec_is_well_formed (calls : list Call) :
  store_ok (snd (run calls fresh)).
Proof.
  assert (H : ∀ st, store_ok st -> store_ok (snd (run calls st))).
  { induction calls as [|c calls IH]; intros st Hok; [done|].
    rewrite service_run_snd_cons. by apply IH, step_store_ok. }
  apply H. intros id spec Hin. simpl in Hin. by rewrite lookup_empty in Hin.
Qed.

(** ** Only the status of a stored spec changes *)

Lemma same_descriptor_set_status s spec : same_descriptor spec (set_status s spec).
Proof. done. Qed.

Lemma step_descriptor c st id :
  draw c ≠ Some id ->
  match executions st !! id, executions (snd (step c st)) !! id with
  | Some s, Some s' => same_descriptor s s'
  | None, Some _ => False
  | _, None => True
  end.
Proof.
  intros Hdraw.
  destruct c as [uuid now request|id' outcome now|now maxAge]; cbn [step].
  - destruct (generateExecutionSpec uuid now request st) as [[spec st']|] eqn:E;
      cbn [snd].
    + apply generateExecutionSpec_shape in E as (_ & _ & _ & _ & ->). simpl.
      rewrite lookup_insert_ne by (simpl in Hdraw; congruence).
      by destruct (executions st !! id).
    + by destruct (executions st !! id).
  - destruct (executeSpec id' outcome now st) as [result st'] eqn:E. cbn [snd].
    replace st' with (snd (executeSpec id' outcome now st)) by by rewrite E.
    rewrite executeSpec_lookup.
    destruct (executions st !! id) as [s|]; simpl; [|done].
    by case_bool_decide.
  - cbn [snd]. rewrite cleanupOldSpecs_lookup.
    destruct (executions st !! id) as [s|]; simpl; [|done].
    by destruct (too_old _ _ s).
Qed.

Lemma same_descriptor_trans a b c :
  same_descriptor a b -> same_descriptor b c -> same_descriptor a c.
Proof. unfold same_descriptor. congruence. Qed.

(** X2. As long as [crypto.randomUUID] does not draw an identifier again,
    the spec stored under it keeps its tool name, parameters, request
    descriptor, creation timestamp and time to live through any sequence
    of calls: only its status can change.  And once it is gone, by a sweep,
    it does not come back. *)
Theorem descriptor_is_immutable
    (calls : list Call) (st : State) (id : string) (spec spec' : ExecutionSpec) :
  id ∉ draws calls ->
  executions (snd (run calls st)) !! id = Some spec' ->
  (executions st !! id = Some spec -> same_descriptor spec spec') ∧
  is_Some (executions st !! id).
Proof.
  revert st spec. unfold draws.
  induction calls as [|c calls IH]; intros st spec Hdraws Hend.
  - simpl in Hend. split; [|by eauto]. intros H. rewrite H in Hend.
    by injection Hend as ->.
  - rewrite service_run_snd_cons in Hend.
    assert (draw c ≠ Some id ∧ id ∉ omap draw calls) as [Hc Hrest].
    { simpl in Hdraws. destruct (draw c) as [u|].
      - apply not_elem_of_cons in Hdraws as [Hne ?]. split; [congruence|done].
      - done. }
    pose proof (step_descriptor c st id Hc) as Hstep.
    destruct (executions (snd (step c st)) !! id) as [mid|] eqn:Emid.
    + destruct (IH (snd (step c st)) mid Hrest Hend) as [Hsame _].
      destruct (executions st !! id) as [s0|] eqn:E0; [|done].
      split; [|by eauto]. intros [= <-].
      eapply same_descriptor_trans; [exact Hstep|by apply Hsame].
    + destruct (IH (snd (step c st)) spec' Hrest Hend) as [_ [x Hx]].
      congruence.
Qed.

(** ** Sweeps *)

Lemma state_eq (st1 st2 : State) :
  (∀ id, executions st1 !! id = executions st2 !! id) ->
  http_log st1 = http_log st2 -> st1 = st2.
Proof.
  destruct st1 as [m1 l1], st2 as [m2 l2]. simpl. intros Hm ->.
  f_equal. by apply map_eq.
Qed.

(** X3. Two sweeps commute, whatever their instants and limits, and a
    sweep repeated changes nothing more.  When one sweep is no later than
    another and has a limit at least as large, running it after the other
    removes nothing more. *)
Theorem sweeps_compose
    (now1 now2 : Z) (maxAge1 maxAge2 : option Z) (st : State) :
  cleanupOldSpecs now1 maxAge1 (cleanupOldSpecs now2 maxAge2 st) =
    cleanupOldSpecs now2 maxAge2 (cleanupOldSpecs now1 maxAge1 st) ∧
  cleanupOldSpecs now1 maxAge1 (cleanupOldSpecs now1 maxAge1 st) =
    cleanupOldSpecs now1 maxAge1 st ∧
  (now1 <= now2 ->
   default DEFAULT_TTL maxAge2 <= default DEFAULT_TTL maxAge1 ->
   cleanupOldSpecs now1 maxAge1 (cleanupOldSpecs now2 maxAge2 st) =
     cleanupOldSpecs now2 maxAge2 st).
Proof.
  repeat split; try intros Hnow Hlimit; apply state_eq; try done; intros id;
    rewrite !cleanupOldSpecs_lookup;
    destruct (executions st !! id) as [spec|]; simpl; try done;
    unfold too_old; repeat (case_bool_decide; simpl); try done; lia.
Qed.

Lemma getActiveSpecs_elem (st : State) (spec : ExecutionSpec) :
  spec ∈ getActiveSpecs st ↔ ∃ id, executions st !! id = Some spec.
Proof.
  unfold getActiveSpecs. rewrite list_elem_of_fmap. split.
  - intros ([id s] & -> & Hin). exists id. by apply elem_of_map_to_list.
  - intros [id Hid]. exists (id, spec). split; [done|].
    by apply elem_of_map_to_list.
Qed.

(** X4. After a sweep [getActiveSpecs] lists exactly the specs it listed
    before whose age does not exceed the limit. *)
Theorem getActiveSpecs_after_sweep
    (now : Z) (maxAge : option Z) (st : State) (spec : ExecutionSpec) :
  spec ∈ getActiveSpecs (cleanupOldSpecs now maxAge st) ↔
  spec ∈ getActiveSpecs st ∧
  now - timestamp spec <= default DEFAULT_TTL maxAge.
Proof.
  rewrite !getActiveSpecs_elem. split.
  - intros [id Hid]. rewrite cleanupOldSpecs_lookup in Hid.
    destruct (executions st !! id) as [s|] eqn:E; simpl in Hid; [|done].
    unfold too_old in Hid. case_bool_decide; [done|].
    injection Hid as ->. split; [by exists id | lia].
  - intros [[id Hid] Hage]. exists id. rewrite cleanupOldSpecs_lookup, Hid.
    simpl. unfold too_old. rewrite bool_decide_eq_false_2; [done|lia].
Qed.

(** ** The validator *)

(** X5. A spec that [generateExecutionSpec] returns passes [validateSpec]
    exactly when its identifier is not empty and the parameters of the
    request are truthy, and [executeSpec] does not change that, whatever
    status it leaves. *)
Theorem validateSpec_of_generated
    (uuid : string) (now : Z) (request : ExecutionRequest) (st st' : State)
    (spec : ExecutionSpec) (s : SpecStatus) :
  generateExecutionSpec uuid now request st = Ok (spec, st') ->
  validateSpec spec =
    negb (bool_decide (uuid = "")) && truthy (q_parameters request) ∧
  validateSpec (set_status s spec) = validateSpec spec.
Proof.
  intros Hgen. split; [|done].
  unfold generateExecutionSpec in Hgen.
  destruct (buildApiCall _ _) as [call|] eqn:Hcall; simpl in Hgen; [|done].
  injection Hgen as <- _.
  unfold buildApiCall in Hcall. case_bool_decide as Htool; [|done].
  destruct (get "datasetId" (q_parameters request)) as [d|]; simpl in Hcall;
    [|done].
  injection Hcall as <-. unfold validateSpec. simpl. rewrite Htool. simpl.
  by destruct (bool_decide (uuid = "")), (truthy (q_parameters request)).
Qed.

(** ** The expiry shown in the table *)

Lemma append_not_EXPIRED (a : string) (c : ascii) :
  c ≠ "D"%char -> a +:+ String c EmptyString ≠ "EXPIRED".
Proof.
  intros Hc H.
  do 7 (destruct a as [|? a]; [injection H; intros; congruence|];
        injection H as _ H).
  destruct a; discriminate H.
Qed.

Lemma formatDuration_not_EXPIRED (ms : Z) : formatDuration ms ≠ "EXPIRED".
Proof.
  unfold formatDuration. repeat case_bool_decide.
  - rewrite <- !ClientProps.append_assoc. by apply append_not_EXPIRED.
  - rewrite <- !ClientProps.append_assoc. by apply append_not_EXPIRED.
  - by apply append_not_EXPIRED.
Qed.

(** X6. The Expires In cell of the executions table reads EXPIRED exactly
    when the age of the spec has reached its time to live, the default when
    the spec has none or has 0. *)
Theorem expiresInCell_EXPIRED (now : Z) (spec : ExecutionSpec) :
  expiresInCell now spec = "EXPIRED" ↔
  effective_ttl spec <= now - timestamp spec.
Proof.
  unfold expiresInCell. fold (effective_ttl spec).
  case_bool_decide as Hleft.
  - split; [|lia]. intros H. by apply formatDuration_not_EXPIRED in H.
  - split; [lia|done].
Qed.

(** X7. For a spec the service made, the table is never behind the default
    sweep: what the sweep removes the table showed as EXPIRED at the same
    instant.  It can be ahead: at an age of exactly 15 minutes the cell
    reads EXPIRED and the sweep keeps the spec. *)
Theorem table_expiry_and_default_sweep
    (now : Z) (st : State) (id : string) (spec : ExecutionSpec) :
  well_stored id spec ->
  executions st !! id = Some spec ->
  (executions (cleanupOldSpecs now None st) !! id = None ->
   expiresInCell now spec = "EXPIRED") ∧
  (now - timestamp spec = DEFAULT_TTL ->
   expiresInCell now spec = "EXPIRED" ∧
   executions (cleanupOldSpecs now None st) !! id = Some spec).
Proof.
  intros (_ & _ & _ & Httl) Hspec.
  assert (Heff : effective_ttl spec = DEFAULT_TTL).
  { unfold effective_ttl. by rewrite Httl. }
  rewrite !expiresInCell_EXPIRED, Heff, cleanupOldSpecs_lookup, Hspec. simpl.
  unfold too_old. split.
  - case_bool_decide; [lia|done].
  - intros Hage. split; [lia|]. rewrite bool_decide_eq_false_2; [done|lia].
Qed.

(** ** The requests the service sends *)

Lemma request_url_well_stored id spec :
  well_stored id spec ->
  ∃ datasetId, request_url spec = abs_data_url datasetId.
Proof.
  intros (_ & Htool & Hcall & _). rewrite Htool in Hcall.
  unfold buildApiCall in Hcall. simpl in Hcall.
  destruct (get "datasetId" (parameters spec)) as [d|]; simpl in Hcall; [|done].
  injection Hcall as Hcall. exists (to_string d).
  unfold request_url, abs_data_url. rewrite <- Hcall. simpl.
  rewrite !ClientProps.append_assoc. reflexivity.
Qed.

(** X8. Every request a service has sent, through any sequence of calls
    from its construction on, is a GET of the ABS data endpoint of some
    dataset, with the two fixed query parameters: the service contacts no
    other host and no other path. *)
Theorem service_requests_only_abs_data (calls : list Call) (u : string) :
  u ∈ http_log (snd (run calls fresh)) ->
  ∃ datasetId, u = abs_data_url datasetId.
Proof.
  assert (H : ∀ st,
    store_ok st ->
    (∀ u, u ∈ http_log st -> ∃ d, u = abs_data_url d) ->
    ∀ u, u ∈ http_log (snd (run calls st)) -> ∃ d, u = abs_data_url d).
  { induction calls as [|c calls IH]; intros st Hok Hlog; [done|].
    rewrite service_run_snd_cons. apply IH; [by apply step_store_ok|].
    destruct c as [uuid now request|id outcome now|now maxAge]; cbn [step].
    - destruct (generateExecutionSpec uuid now request st) as [[spec st']|] eqn:E;
        cbn [snd]; [|done].
      by apply generateExecutionSpec_shape in E as (_ & _ & _ & _ & ->).
    - destruct (executeSpec id outcome now st) as [result st'] eqn:E. cbn [snd].
      replace st' with (snd (executeSpec id outcome now st)) by by rewrite E.
      destruct (executions st !! id) as [spec|] eqn:Hspec.
      + destruct (executeSpec_found_store id outcome now st spec Hspec)
          as [_ ->].
        intros v Hv. apply elem_of_app in Hv as [Hv|Hv]; [by apply Hlog|].
        apply list_elem_of_singleton in Hv as ->.
        by apply request_url_well_stored with id, Hok.
      + by rewrite executeSpec_missing.
    - done. }
  apply H.
  - intros id spec Hin. simpl in Hin. by rewrite lookup_empty in Hin.
  - intros v Hv. simpl in Hv. by apply elem_of_nil in Hv.
Qed.

End ServiceMore.

(** * Properties of the tool handlers *)

Module ServerMore.

Import Service ServiceProps ServiceMore Server.

Lemma handleQueryDataset_ok uuid now args datasetId st :
  get_opt "datasetId" args = JStr datasetId -> datasetId ≠ "" ->
  let spec :=
    {| executionId := uuid;
       toolName := "query_dataset";
       parameters := args;
       apiCall := {| method := "GET";
                     url := ABS_API_BASE +:+ "/rest/data/" +:+ datasetId +:+ "/all";
                     params := Some [("format", "jsondata");
                                     ("dimensionAtObservation", "AllDimensions")];
                     headers := None |};
       timestamp := now;
       status := Pending;
       ttl := Some DEFAULT_TTL |} in
  handleQueryDataset uuid now args st =
  Ok ({| text_spec := spec;
         text_status := "ready";
         text_datasetId := JStr datasetId;
         text_message := "Use execute_direct tool with this executionId to fetch data";
         _meta := spec |},
      {| executions := <[uuid := spec]> (executions st);
         http_log := http_log st |}).
Proof.
  intros Hd Hne. unfold handleQueryDataset, generateExecutionSpec.
  rewrite Hd. simpl. rewrite bool_decide_eq_false_2 by done. simpl.
  rewrite buildApiCall_query_dataset by (by destruct args).
  simpl. by rewrite Hd.
Qed.

Section Tools.

Variable stringify : JsValue -> string.

Local Abbreviation handleExecuteDirect := (Server.handleExecuteDirect stringify).
Local Abbreviation callTool := (Server.callTool stringify).

(** X9. When execute_direct returns, the text of its reply is absent,
    whatever the response of the remote call was: the tool hands back
    neither the payload nor the record count.  It returns only for a
    string identifier that is in the store and a request that succeeded;
    the spec is then stored with status success and one request has been
    logged. *)
Theorem handleExecuteDirect_returns_no_text
    (args : JsValue) (outcome : HttpOutcome) (now : Z) (st st' : State)
    (text : option string) :
  handleExecuteDirect args outcome now st = (Ok text, st') ->
  text = None ∧
  ∃ id spec data,
    get_opt "executionId" args = JStr id ∧
    executions st !! id = Some spec ∧
    outcome = Fulfilled data ∧
    executions st' !! id = Some (set_status Success spec) ∧
    http_log st' = http_log st ++ [request_url spec].
Proof.
  unfold Server.handleExecuteDirect.
  destruct (truthy (get_opt "executionId" args)) eqn:Htruthy; simpl; [|done].
  destruct (get_opt "executionId" args) as [| |b|n|id|l|l] eqn:Hid; try done.
  destruct (executions st !! id) as [spec|] eqn:Hspec.
  - destruct (executeSpec_found_store id outcome now st spec Hspec) as [Hm Hl].
    destruct (executeSpec id outcome now st) as [result st1] eqn:E.
    simpl in Hm, Hl.
    unfold executeSpec in E. rewrite Hspec in E.
    destruct outcome as [data|e]; simpl in E; injection E as <- <-; simpl;
      [|done].
    intros [= <- <-]. split; [done|]. exists id, spec, data.
    repeat split; try done.
    + simpl in Hm. rewrite Hm. apply lookup_insert_eq.
  - rewrite executeSpec_missing by done. done.
Qed.

(** X10. execute_direct for an identifier in the store whose request fails
    throws the description of the failure, or "Failed to execute query"
    when that is empty; the store has recorded the failure all the same:
    the spec is there with status error.  For an identifier that is not in
    the store it throws "Execution spec not found" and changes nothing. *)
Theorem handleExecuteDirect_failures
    (id : string) (args : JsValue) (e : Thrown) (now : Z) (st : State) :
  get_opt "executionId" args = JStr id -> id ≠ "" ->
  match executions st !! id with
  | Some spec =>
      ∃ st',
        handleExecuteDirect args (Rejected e) now st =
          (Throw (ThrownError
                    (if bool_decide (error_description e = "")
                     then "Failed to execute query" else error_description e)),
           st') ∧
        executions st' !! id = Some (set_status Error spec)
  | None =>
      ∀ outcome,
        handleExecuteDirect args outcome now st =
          (Throw (ThrownError "Execution spec not found"), st)
  end.
Proof.
  intros Hid Hne. unfold Server.handleExecuteDirect. rewrite Hid. simpl.
  rewrite bool_decide_eq_false_2 by done. simpl.
  destruct (executions st !! id) as [spec|] eqn:Hspec.
  - destruct (executeSpec_found_store id (Rejected e) now st spec Hspec)
      as [Hm _].
    unfold executeSpec in *. rewrite Hspec in *. simpl in *.
    eexists. split; [reflexivity|]. simpl. rewrite Hm. apply lookup_insert_eq.
  - intros outcome. by rewrite executeSpec_missing.
Qed.

(** X11. The call-tool handler returns for the two registered tools only,
    and every error it throws has a message that starts with
    "Error executing tool <name>: ".  For a name that is not registered
    the rest of the message is "Unknown tool: <name>" and the store is
    untouched. *)
Theorem callTool_registry_and_errors
    (name : string) (args : JsValue) (uuid : string) (outcome : HttpOutcome)
    (now : Z) (st : State) :
  match callTool name args uuid outcome now st with
  | (Ok _, _) => name = "query_dataset" ∨ name = "execute_direct"
  | (Throw e, st') =>
      (∃ inner,
         e = ThrownError ("Error executing tool " +:+ name +:+ ": " +:+ inner)) ∧
      (name ≠ "query_dataset" -> name ≠ "execute_direct" ->
       e = ThrownError ("Error executing tool " +:+ name +:+ ": " +:+
                        "Unknown tool: " +:+ name) ∧ st' = st)
  end.
Proof.
  unfold Server.callTool.
  case_bool_decide as Hq; [|case_bool_decide as Hd].
  - destruct (handleQueryDataset uuid now args st) as [[response st']|e];
      [by left|]. split; [by eexists|done].
  - destruct (Server.handleExecuteDirect stringify args outcome now st)
      as [[text|e] st']; [by right|]. split; [by eexists|done].
  - split; [by eexists|done].
Qed.

(** X12. A query_dataset call followed by an execute_direct call with the
    identifier it returned, when the remote call succeeds: the second call
    returns a reply without text, the one request that was sent is the
    data URL of the dataset that was asked for, and the spec ends with
    status success. *)
Theorem query_then_execute
    (args : JsValue) (datasetId uuid uuid2 : string)
    (outcome1 : HttpOutcome) (data : JsValue) (now1 now2 : Z) (st : State) :
  get_opt "datasetId" args = JStr datasetId -> datasetId ≠ "" -> uuid ≠ "" ->
  ∃ response st1 st2,
    callTool "query_dataset" args uuid outcome1 now1 st =
      (Ok (QueryReply response), st1) ∧
    executionId (_meta response) = uuid ∧
    callTool "execute_direct" (JObj [("executionId", JStr uuid)]) uuid2
        (Fulfilled data) now2 st1 = (Ok (DirectReply None), st2) ∧
    http_log st2 = http_log st ++ [abs_data_url datasetId] ∧
    status <$> executions st2 !! uuid = Some Success.
Proof.
  intros Hd Hne Huuid.
  pose proof (handleQueryDataset_ok uuid now1 args datasetId st Hd Hne) as Hq.
  simpl in Hq.
  eexists _, _, _. split; [|split; [|split; [|split]]].
  - unfold Server.callTool. simpl. rewrite Hq. reflexivity.
  - reflexivity.
  - unfold Server.callTool, Server.handleExecuteDirect. simpl.
    rewrite bool_decide_eq_false_2 by done. simpl.
    unfold executeSpec. simpl. rewrite lookup_insert_eq. reflexivity.
  - simpl. f_equal. f_equal. unfold request_url, abs_data_url. simpl.
    rewrite !ClientProps.append_assoc. reflexivity.
  - simpl. unfold assign_status.
    rewrite !lookup_alter_eq, lookup_insert_eq. reflexivity.
Qed.

End Tools.

End ServerMore.

(** * Properties of the query handlers *)

Module HandlersMore.

Import Service ServiceProps ServiceMore Handlers.

Lemma checked_datasetId_Some (args : JsValue) (datasetId : string) :
  checked_datasetId args = Some datasetId ↔
  get_opt "datasetId" args = JStr datasetId ∧ datasetId ≠ "".
Proof.
  unfold checked_datasetId.
  destruct (get_opt "datasetId" args) as [| |b|n|s|l|l];
    try (split; [done | by intros [? ?]]).
  case_bool_decide as Hs.
  - split; [done|]. intros [[= ->] ?]. done.
  - split; [by intros [= ->] | by intros [[= ->] _]].
Qed.

Lemma query_url_request_url (datasetId : string) :
  query_url datasetId =
  (ABS_API_BASE +:+ "/rest/data/" +:+ datasetId +:+ "/all") +:+ "?" +:+
  URLSearchParams_toString
    [("format", "jsondata"); ("dimensionAtObservation", "AllDimensions")].
Proof. unfold query_url. rewrite !ClientProps.append_assoc. reflexivity. Qed.

Section Handlers.

Variable stringify : JsValue -> string.

Local Abbreviation handleQueryDataset := (Handlers.handleQueryDataset stringify).
Local Abbreviation handleQueryDatasetWithService :=
  (Handlers.handleQueryDatasetWithService stringify).

(** X13. A response of [handleQueryDataset] has no [data]; its record
    count is the count of the body that came back; and the URL the handler
    fetched, which it reports as the endpoint, is the one its own [apiCall]
    descriptor rebuilds to: the URL of the descriptor, a question mark and
    the encoded parameters. *)
Theorem handleQueryDataset_descriptor_matches_fetch
    (args : JsValue) (outcome : AxiosOutcome) (uuid : string) (now : Z)
    (response : HybridResponse) :
  handleQueryDataset args outcome uuid now = Ok response ->
  h_data response = None ∧
  (∃ data, outcome = AxFulfilled data ∧
           h_recordCount response = countRecords data) ∧
  get_opt "datasetId" args = JStr (h_datasetId response) ∧
  endpoint <$> h_meta response =
    Some (url (h_apiCall response) +:+ "?" +:+
          URLSearchParams_toString (default [] (params (h_apiCall response)))).
Proof.
  unfold Handlers.handleQueryDataset.
  destruct (checked_datasetId args) as [d|] eqn:Hd; [|done].
  apply checked_datasetId_Some in Hd as [Hd _].
  destruct outcome as [data|status data|e]; try done.
  intros [= <-]. simpl. split; [done|]. split; [by exists data|].
  split; [done|]. by rewrite query_url_request_url.
Qed.

(** X14. [handleQueryDatasetWithService] on a successful fetch: the spec it
    stored is pending under the identifier the response names, the response
    has no [data], the URL it fetched is the URL that spec stands for, and
    [executeSpec] on the identifier, given the same body, requests that URL
    again and reports the record count of the response. *)
Theorem handleQueryDatasetWithService_agrees_with_executeSpec
    (args : JsValue) (datasetId uuid : string) (now later : Z)
    (data : JsValue) (st : State) :
  checked_datasetId args = Some datasetId ->
  ∃ response spec st',
    handleQueryDatasetWithService args uuid now (AxFulfilled data) st =
      (Ok response, st') ∧
    h_data response = None ∧
    h_executionId response = uuid ∧
    executions st' !! uuid = Some spec ∧ status spec = Pending ∧
    http_log st' = http_log st ++ [request_url spec] ∧
    r_recordCount (fst (executeSpec uuid (Fulfilled data) later st')) =
      Some (h_recordCount response) ∧
    http_log (snd (executeSpec uuid (Fulfilled data) later st')) =
      http_log st ++ [request_url spec; request_url spec].
Proof.
  intros Hd. unfold Handlers.handleQueryDatasetWithService. rewrite Hd.
  unfold generateExecutionSpec. simpl.
  eexists _, _, _. split; [reflexivity|]. simpl.
  split; [done|]. split; [done|].
  split; [apply lookup_insert_eq|]. split; [done|].
  split; [|split].
  - unfold request_url. simpl. by rewrite query_url_request_url.
  - unfold executeSpec. simpl. by rewrite lookup_insert_eq.
  - unfold executeSpec. simpl. rewrite lookup_insert_eq. simpl.
    rewrite <- app_assoc. simpl. unfold request_url. simpl.
    by rewrite query_url_request_url.
Qed.

(** X15. When the fetch of [handleQueryDatasetWithService] fails the
    handler throws, an error with a response as
    "ABS API Error: <status> - <body>" and any other as it came, and the
    spec it had generated stays in the store, pending.  When the
    [datasetId] does not pass the check the handler throws before it
    generates or fetches anything. *)
Theorem handleQueryDatasetWithService_failure_leaves_spec
    (args : JsValue) (datasetId uuid : string) (now : Z)
    (outcome : AxiosOutcome) (st : State) :
  checked_datasetId args = Some datasetId ->
  (∀ data, outcome ≠ AxFulfilled data) ->
  (∃ e spec st',
     handleQueryDatasetWithService args uuid now outcome st = (Throw e, st') ∧
     e = match outcome with
         | AxStatus status data =>
             ThrownError ("ABS API Error: " +:+ pretty status +:+ " - " +:+
                          stringify data)
         | AxOther other => other
         | AxFulfilled _ => e
         end ∧
     executions st' !! uuid = Some spec ∧ status spec = Pending ∧
     http_log st' = http_log st ++ [request_url spec]) ∧
  ∀ bad, checked_datasetId bad = None ->
    handleQueryDatasetWithService bad uuid now outcome st =
      (Throw (ThrownError "datasetId is required and must be a string"), st).
Proof.
  intros Hd Hfail. split.
  - unfold Handlers.handleQueryDatasetWithService. rewrite Hd.
    unfold generateExecutionSpec. simpl.
    destruct outcome as [data|status data|e]; [by destruct (Hfail data)| |];
      (eexists _, _, _; split; [reflexivity|]; simpl;
       split; [done|]; split; [apply lookup_insert_eq|]; split; [done|];
       unfold request_url; simpl; by rewrite query_url_request_url).
  - intros bad Hbad. unfold Handlers.handleQueryDatasetWithService.
    by rewrite Hbad.
Qed.

End Handlers.

End HandlersMore.

(** * Further properties of the client *)

Module ClientMore.

Import Client ClientProps.

(** ** Lines *)

Lemma split_newline_no_newline (s : string) :
  Forall no_newline (split_newline s).
Proof.
  induction s as [|c s IH]; simpl.
  - repeat constructor. unfold no_newline. simpl. apply not_elem_of_nil.
  - case_bool_decide as Hc.
    + constructor; [|done]. unfold no_newline. simpl. apply not_elem_of_nil.
    + destruct (split_newline s) as [|seg segs].
      * repeat constructor. unfold no_newline. simpl.
        apply not_elem_of_cons. split; [congruence|apply not_elem_of_nil].
      * apply Forall_cons in IH as [Hseg Hsegs]. constructor; [|done].
        unfold no_newline in *. simpl. apply not_elem_of_cons.
        split; [congruence|done].
Qed.

Lemma removelast_cons_ne {A} (x : A) (l : list A) :
  l ≠ [] -> removelast (x :: l) = x :: removelast l.
Proof. by destruct l. Qed.

Lemma last_cons_ne {A} (x d : A) (l : list A) :
  l ≠ [] -> List.last (x :: l) d = List.last l d.
Proof. by destruct l. Qed.

Lemma framed_split_newline (s : string) :
  framed (removelast (split_newline s)) (List.last (split_newline s) EmptyString) = s.
Proof.
  induction s as [|c s IH]; [done|].
  pose proof (split_newline_nonempty s) as Hne.
  destruct (decide (c = newline)) as [->|Hc].
  - change (split_newline (String newline s))
      with (EmptyString :: split_newline s).
    rewrite removelast_cons_ne, last_cons_ne by done.
    cbn [framed]. by rewrite IH.
  - rewrite split_newline_cons_other by done.
    destruct (split_newline s) as [|seg rest] eqn:E; [done|].
    cbn [hd tail]. destruct (decide (rest = [])) as [->|Hrest].
    + simpl in *. by rewrite IH.
    + rewrite removelast_cons_ne, last_cons_ne in IH |- * by done.
      cbn [framed] in *.
      change (String c seg +:+ ?x) with (String c (seg +:+ x)).
      by rewrite IH.
Qed.

(** X16. Splitting at the newlines loses nothing and invents nothing: the
    segments contain no newline, and putting a newline after each of them
    but the last gives the text back. *)
Theorem split_newline_round_trip (s : string) :
  Forall no_newline (split_newline s) ∧
  framed (removelast (split_newline s))
         (List.last (split_newline s) EmptyString) = s.
Proof. split; [apply split_newline_no_newline | apply framed_split_newline]. Qed.

(** ** The calls and their handlers *)

Lemma clearTimeout_lookup_ne k j cs : j ≠ k -> clearTimeout k cs !! j = cs !! j.
Proof.
  intros Hne. unfold clearTimeout. destruct (cs !! k); [|done].
  by rewrite list_lookup_insert_ne.
Qed.

Lemma clearTimeout_lookup_eq k cs call :
  cs !! k = Some call ->
  clearTimeout k cs !! k =
  Some {| call_id := call_id call; settlement := settlement call;
          timer_armed := false; awaiter := awaiter call |}.
Proof.
  intros H. unfold clearTimeout. rewrite H.
  apply list_lookup_insert_eq. by apply lookup_lt_Some with call.
Qed.

Lemma settle_lookup_ne k j s cs : j ≠ k -> settle k s cs !! j = cs !! j.
Proof.
  intros Hne. unfold settle. destruct (cs !! k) as [call|]; [|done].
  destruct (settlement call); [|done..]. by rewrite list_lookup_insert_ne.
Qed.

Lemma settle_lookup_eq k s cs call :
  cs !! k = Some call ->
  settle k s cs !! k =
  Some (match settlement call with
        | Unsettled => {| call_id := call_id call; settlement := s;
                          timer_armed := timer_armed call;
                          awaiter := awaiter call |}
        | _ => call
        end).
Proof.
  intros H. unfold settle. rewrite H.
  destruct (settlement call); [|done..].
  apply list_lookup_insert_eq. by apply lookup_lt_Some with call.
Qed.

Lemma settled_kept_refl cs : settled_kept cs cs.
Proof. intros k call H. by exists call. Qed.

Lemma settled_kept_trans a b c :
  settled_kept a b -> settled_kept b c -> settled_kept a c.
Proof.
  intros Hab Hbc k call H.
  destruct (Hab k call H) as (call1 & H1 & Hid1 & Hs1).
  destruct (Hbc k call1 H1) as (call2 & H2 & Hid2 & Hs2).
  exists call2. split; [done|]. split; [congruence|].
  intros Hset. rewrite Hs2; [by apply Hs1 | by rewrite Hs1].
Qed.

Lemma settled_kept_clearTimeout k cs : settled_kept cs (clearTimeout k cs).
Proof.
  intros j call H. destruct (decide (j = k)) as [->|Hne].
  - rewrite (clearTimeout_lookup_eq _ _ _ H). by eexists.
  - rewrite clearTimeout_lookup_ne by done. by exists call.
Qed.

Lemma settled_kept_settle k s cs : settled_kept cs (settle k s cs).
Proof.
  intros j call H. destruct (decide (j = k)) as [->|Hne].
  - rewrite (settle_lookup_eq _ _ _ _ H).
    destruct (settlement call) eqn:E; eexists; (split; [done|]); simpl;
      by rewrite ?E.
  - rewrite settle_lookup_ne by done. by exists call.
Qed.

Lemma settled_kept_app cs more : settled_kept cs (cs ++ more).
Proof.
  intros k call H. exists call. split; [|done]. by apply lookup_app_l_Some.
Qed.

Lemma handleResponse_calls response c c' :
  handleResponse response c = Ok c' -> settled_kept (calls c) (calls c').
Proof.
  unfold handleResponse. destruct (get "id" response) as [id|]; simpl; [|done].
  destruct (truthy id); [|intros [= <-]; apply settled_kept_refl].
  destruct id; try (intros [= <-]; apply settled_kept_refl).
  simpl. destruct (responseHandlers c !! n) as [k|];
    [|intros [= <-]; apply settled_kept_refl].
  intros [= <-]. simpl.
  eapply settled_kept_trans;
    [apply settled_kept_clearTimeout | apply settled_kept_settle].
Qed.

Lemma fireTimeout_calls k c : settled_kept (calls c) (calls (fireTimeout k c)).
Proof.
  unfold fireTimeout. destruct (calls c !! k) as [call|];
    [|apply settled_kept_refl].
  destruct (timer_armed call); [|apply settled_kept_refl].
  destruct (responseHandlers c !! call_id call); simpl.
  - eapply settled_kept_trans;
      [apply settled_kept_clearTimeout | apply settled_kept_settle].
  - apply settled_kept_clearTimeout.
Qed.

Lemma sendRequest_calls method params who c k id c' :
  sendRequest method params who c = Ok (k, id, c') ->
  settled_kept (calls c) (calls c').
Proof.
  unfold sendRequest. destruct (server c); [|done].
  intros [= _ _ <-]. apply settled_kept_app.
Qed.

(** The two invariants through each operation. *)

Lemma handlers_timers_sendRequest method params who c k id c' :
  sendRequest method params who c = Ok (k, id, c') ->
  handlers_ok c ∧ timers_ok c -> handlers_ok c' ∧ timers_ok c'.
Proof.
  unfold sendRequest. destruct (server c); [|done].
  intros [= <- <- <-] [Hh Ht]. split.
  - intros id k. simpl. destruct (decide (increment (messageId c) = id)) as [<-|Hne].
    + rewrite lookup_insert_eq. intros [= <-].
      eexists. split.
      { rewrite lookup_app_r by done. rewrite Nat.sub_diag. reflexivity. }
      done.
    + rewrite lookup_insert_ne by done. intros Hk.
      destruct (Hh id k Hk) as (call & Hcall & ? & ?).
      exists call. split; [by apply lookup_app_l_Some | done].
  - intros k call. simpl. intros Hk Harmed.
    apply lookup_app_Some in Hk as [Hk|[_ Hk]]; [by apply Ht with k|].
    destruct (k - length (calls c))%nat; simpl in Hk; [|done].
    by injection Hk as <-.
Qed.

Lemma handlers_timers_handleResponse response c c' :
  handleResponse response c = Ok c' ->
  handlers_ok c ∧ timers_ok c -> handlers_ok c' ∧ timers_ok c'.
Proof.
  unfold handleResponse. destruct (get "id" response) as [id|]; simpl; [|done].
  destruct (truthy id); [|by intros [= <-]].
  destruct id; try by intros [= <-].
  simpl. destruct (responseHandlers c !! n) as [k|] eqn:Hn; [|by intros [= <-]].
  intros [= <-] [Hh Ht].
  destruct (Hh n k Hn) as (call & Hcall & Hid & Hunsettled).
  split.
  - intros id k'. simpl. destruct (decide (n = id)) as [<-|Hne].
    + by rewrite lookup_delete_eq.
    + rewrite lookup_delete_ne by done. intros Hk'.
      destruct (Hh id k' Hk') as (call' & Hcall' & Hid' & Hun').
      assert (k' ≠ k) by (intros ->; congruence).
      exists call'. rewrite settle_lookup_ne, clearTimeout_lookup_ne by done.
      done.
  - intros k' call'. simpl. destruct (decide (k' = k)) as [->|Hne].
    + rewrite (settle_lookup_eq _ _ _ _ (clearTimeout_lookup_eq _ _ _ Hcall)).
      simpl. rewrite Hunsettled. by intros [= <-].
    + rewrite settle_lookup_ne, clearTimeout_lookup_ne by done. apply Ht.
Qed.

Lemma handlers_timers_fireTimeout k c :
  handlers_ok c ∧ timers_ok c ->
  handlers_ok (fireTimeout k c) ∧ timers_ok (fireTimeout k c).
Proof.
  intros [Hh Ht]. unfold fireTimeout.
  destruct (calls c !! k) as [call|] eqn:Hcall; [|done].
  destruct (timer_armed call) eqn:Harmed; [|done].
  destruct (responseHandlers c !! call_id call) as [k0|] eqn:Hk0; split; simpl.
  - intros id k'. simpl. destruct (decide (call_id call = id)) as [<-|Hne].
    + by rewrite lookup_delete_eq.
    + rewrite lookup_delete_ne by done. intros Hk'.
      destruct (Hh id k' Hk') as (call' & Hcall' & Hid' & Hun').
      assert (k' ≠ k) by (intros ->; congruence).
      exists call'. rewrite settle_lookup_ne, clearTimeout_lookup_ne by done.
      done.
  - intros k' call'. simpl. destruct (decide (k' = k)) as [->|Hne].
    + rewrite (settle_lookup_eq _ _ _ _ (clearTimeout_lookup_eq _ _ _ Hcall)).
      simpl. destruct (settlement call); by intros [= <-].
    + rewrite settle_lookup_ne, clearTimeout_lookup_ne by done. apply Ht.
  - intros id k' Hk'. simpl in *.
    destruct (Hh id k' Hk') as (call' & Hcall' & Hid' & Hun').
    assert (k' ≠ k) by (intros ->; congruence).
    exists call'. by rewrite clearTimeout_lookup_ne.
  - intros k' call'. simpl. destruct (decide (k' = k)) as [->|Hne].
    + rewrite (clearTimeout_lookup_eq _ _ _ Hcall). by intros [= <-].
    + rewrite clearTimeout_lookup_ne by done. apply Ht.
Qed.

(** ** Responses and timers *)

Lemma handleResponse_matched response n k c :
  get_opt "id" response = JNum n -> n ≠ 0 ->
  responseHandlers c !! n = Some k ->
  handleResponse response c =
  Ok (runHandler k response c (delete n (responseHandlers c))).
Proof.
  intros Hid Hn Hk. unfold handleResponse.
  assert (get "id" response = Ok (JNum n)) as ->.
  { destruct response; try done. simpl in *. by rewrite Hid. }
  simpl. rewrite (proj2 (Z.eqb_neq n 0)) by done. simpl. by rewrite Hk.
Qed.

Lemma handleResponse_unmatched response n c :
  get_opt "id" response = JNum n ->
  responseHandlers c !! n = None ->
  handleResponse response c = Ok c.
Proof.
  intros Hid Hk. unfold handleResponse.
  assert (get "id" response = Ok (JNum n)) as ->.
  { destruct response; try done. simpl in *. by rewrite Hid. }
  simpl. destruct (negb (n =? 0)); [|done]. by rewrite Hk.
Qed.

(** X20. A response whose identifier has a handler completes the call of
    that handler with this very response and disarms its timer, leaves
    every other call as it was, and takes the handler out of the table; the
    same response arriving again changes nothing. *)
Theorem response_completes_its_call_once
    (response : JsValue) (n : Z) (k : nat) (call : Call) (c : HybridMCPClient) :
  get_opt "id" response = JNum n -> n ≠ 0 ->
  responseHandlers c !! n = Some k ->
  calls c !! k = Some call ->
  settlement call = Unsettled ->
  ∃ c',
    handleResponse response c = Ok c' ∧
    calls c' !! k =
      Some {| call_id := call_id call; settlement := Resolved response;
              timer_armed := false; awaiter := awaiter call |} ∧
    (∀ j, j ≠ k -> calls c' !! j = calls c !! j) ∧
    responseHandlers c' = delete n (responseHandlers c) ∧
    handleResponse response c' = Ok c'.
Proof.
  intros Hid Hn Hk Hcall Hunsettled.
  eexists. split; [by apply handleResponse_matched|].
  split; [|split; [|split]]; simpl.
  - rewrite (settle_lookup_eq _ _ _ _ (clearTimeout_lookup_eq _ _ _ Hcall)).
    simpl. by rewrite Hunsettled.
  - intros j Hj. by rewrite settle_lookup_ne, clearTimeout_lookup_ne.
  - done.
  - apply handleResponse_unmatched with n; [done|]. simpl.
    apply lookup_delete_eq.
Qed.

(** X21. When the timer of a waiting call fires, the call is rejected with
    "Request timeout" and its handler leaves the table; no other call
    changes.  A response that comes for it afterwards is dropped, and the
    timer does not fire a second time. *)
Theorem timeout_rejects_and_forgets
    (k : nat) (call : Call) (c : HybridMCPClient) (response : JsValue) :
  calls c !! k = Some call ->
  timer_armed call = true ->
  settlement call = Unsettled ->
  responseHandlers c !! call_id call = Some k ->
  get_opt "id" response = JNum (call_id call) ->
  calls (fireTimeout k c) !! k =
    Some {| call_id := call_id call;
            settlement := RejectedWith "Request timeout";
            timer_armed := false; awaiter := awaiter call |} ∧
  (∀ j, j ≠ k -> calls (fireTimeout k c) !! j = calls c !! j) ∧
  responseHandlers (fireTimeout k c) =
    delete (call_id call) (responseHandlers c) ∧
  handleResponse response (fireTimeout k c) = Ok (fireTimeout k c) ∧
  fireTimeout k (fireTimeout k c) = fireTimeout k c.
Proof.
  intros Hcall Harmed Hunsettled Hk Hid.
  assert (Hfire : fireTimeout k c =
    {| server := server c; messageId := messageId c;
       responseHandlers := delete (call_id call) (responseHandlers c);
       buffer := buffer c; initialized := initialized c;
       calls := settle k (RejectedWith "Request timeout")
                  (clearTimeout k (calls c));
       stdin := stdin c; spawned := spawned c |}).
  { unfold fireTimeout. by rewrite Hcall, Harmed, Hk. }
  assert (Hafter : calls (fireTimeout k c) !! k =
    Some {| call_id := call_id call;
            settlement := RejectedWith "Request timeout";
            timer_armed := false; awaiter := awaiter call |}).
  { rewrite Hfire. simpl.
    rewrite (settle_lookup_eq _ _ _ _ (clearTimeout_lookup_eq _ _ _ Hcall)).
    simpl. by rewrite Hunsettled. }
  split; [done|]. split; [|split; [|split]].
  - intros j Hj. rewrite Hfire. simpl.
    by rewrite settle_lookup_ne, clearTimeout_lookup_ne.
  - by rewrite Hfire.
  - apply handleResponse_unmatched with (call_id call); [done|].
    rewrite Hfire. simpl. apply lookup_delete_eq.
  - unfold fireTimeout at 1. by rewrite Hafter.
Qed.

(** X22. The timer looks the handler up by identifier only.  When the
    identifier of a call whose timer fires is, in the table, the
    identifier of another call (the counter restarts after a cleanup), the
    handler of that other call is removed and the other call itself is left
    waiting: a response for it is dropped from then on, and its own timer,
    when it fires, rejects nothing. *)
Theorem timer_removes_the_handler_of_another_call
    (k k' : nat) (call : Call) (c : HybridMCPClient) (response : JsValue) :
  handlers_ok c ->
  calls c !! k = Some call ->
  timer_armed call = true ->
  responseHandlers c !! call_id call = Some k' ->
  k' ≠ k ->
  get_opt "id" response = JNum (call_id call) ->
  responseHandlers (fireTimeout k c) !! call_id call = None ∧
  calls (fireTimeout k c) !! k' = calls c !! k' ∧
  settlement <$> calls c !! k' = Some Unsettled ∧
  handleResponse response (fireTimeout k c) = Ok (fireTimeout k c) ∧
  settlement <$> calls (fireTimeout k' (fireTimeout k c)) !! k' = Some Unsettled.
Proof.
  intros Hok Hcall Harmed Hk' Hne Hid.
  destruct (Hok _ _ Hk') as (call' & Hcall' & Hid' & Hun').
  assert (Hfire : fireTimeout k c =
    {| server := server c; messageId := messageId c;
       responseHandlers := delete (call_id call) (responseHandlers c);
       buffer := buffer c; initialized := initialized c;
       calls := settle k (RejectedWith "Request timeout")
                  (clearTimeout k (calls c));
       stdin := stdin c; spawned := spawned c |}).
  { unfold fireTimeout. by rewrite Hcall, Harmed, Hk'. }
  assert (Hgone : responseHandlers (fireTimeout k c) !! call_id call = None).
  { rewrite Hfire. simpl. apply lookup_delete_eq. }
  assert (Hsame : calls (fireTimeout k c) !! k' = calls c !! k').
  { rewrite Hfire. simpl.
    by rewrite settle_lookup_ne, clearTimeout_lookup_ne. }
  split; [done|]. split; [done|].
  split; [rewrite Hcall'; simpl; by rewrite Hun'|].
  split; [by apply handleResponse_unmatched with (call_id call)|].
  unfold fireTimeout at 1. rewrite Hsame, Hcall'.
  destruct (timer_armed call'); [|rewrite Hsame, Hcall'; simpl; by rewrite Hun'].
  rewrite Hid', Hgone. simpl.
  rewrite (clearTimeout_lookup_eq _ _ _ (eq_trans Hsame Hcall')). simpl.
  by rewrite Hun'.
Qed.

Section Reader.

Variable JSON_parse : string -> option JsValue.

Local Abbreviation handleLine := (Client.handleLine JSON_parse).
Local Abbreviation handleData := (Client.handleData JSON_parse).
Local Abbreviation handleLines :=
  (fold_left (fun c line => Client.handleLine JSON_parse line c)).

(** X17. After [handleData] the buffer never contains a newline, whatever
    the buffer and the chunk were: a complete line is never kept back. *)
Theorem buffer_has_no_newline (data : string) (c : HybridMCPClient) :
  no_newline (buffer (handleData data c)).
Proof.
  unfold Client.handleData.
  destruct (handleLines_fields JSON_parse
              (removelast (split_newline (buffer c +:+ data)))
              (set_buffer (List.last (split_newline (buffer c +:+ data)) EmptyString) c))
    as (-> & _ & _).
  simpl.
  pose proof (split_newline_no_newline (buffer c +:+ data)) as Hall.
  pose proof (split_newline_nonempty (buffer c +:+ data)) as Hne.
  induction Hall as [|seg segs Hseg Hsegs IH]; [done|].
  destruct segs as [|seg' segs]; [done|]. by apply IH.
Qed.

Lemma handleLine_calls line c :
  settled_kept (calls c) (calls (handleLine line c)) ∧
  (handlers_ok c ∧ timers_ok c ->
   handlers_ok (handleLine line c) ∧ timers_ok (handleLine line c)).
Proof.
  unfold Client.handleLine. case_bool_decide; [split; [apply settled_kept_refl|done]|].
  destruct (JSON_parse line) as [response|]; [|split; [apply settled_kept_refl|done]].
  destruct (handleResponse response c) as [c'|] eqn:E;
    [|split; [apply settled_kept_refl|done]].
  split; [by apply handleResponse_calls with response|].
  by apply handlers_timers_handleResponse with response.
Qed.

Lemma handleLines_calls lines c :
  settled_kept (calls c) (calls (handleLines lines c)) ∧
  (handlers_ok c ∧ timers_ok c ->
   handlers_ok (handleLines lines c) ∧ timers_ok (handleLines lines c)).
Proof.
  revert c. induction lines as [|line lines IH]; intros c; simpl.
  - split; [apply settled_kept_refl|done].
  - destruct (handleLine_calls line c) as [Hk Hinv].
    destruct (IH (handleLine line c)) as [Hk' Hinv'].
    split; [by eapply settled_kept_trans|]. intros H. by apply Hinv', Hinv.
Qed.

Lemma step_calls e c :
  settled_kept (calls c) (calls (snd (step JSON_parse e c))) ∧
  (handlers_ok c ∧ timers_ok c ->
   handlers_ok (snd (step JSON_parse e c)) ∧
   timers_ok (snd (step JSON_parse e c))).
Proof.
  destruct e as [| |method params|chunk|k| |]; cbn [step].
  - unfold connect. destruct (server c); simpl;
      (split; [apply settled_kept_refl|done]).
  - unfold initialize.
    destruct (sendRequest _ _ _ c) as [[[k id] c']|] eqn:E; cbn [snd].
    + split; [by eapply sendRequest_calls|by eapply handlers_timers_sendRequest].
    + split; [apply settled_kept_refl|done].
  - destruct (sendRequest _ _ _ c) as [[[k id] c']|] eqn:E; cbn [snd].
    + split; [by eapply sendRequest_calls|by eapply handlers_timers_sendRequest].
    + split; [apply settled_kept_refl|done].
  - cbn [snd]. unfold Client.handleData.
    exact (handleLines_calls
             (removelast (split_newline (buffer c +:+ chunk)))
             (set_buffer (List.last (split_newline (buffer c +:+ chunk)) EmptyString) c)).
  - cbn [snd]. split; [apply fireTimeout_calls|apply handlers_timers_fireTimeout].
  - cbn [snd]. unfold close, cleanup. simpl.
    destruct (server c); simpl; (split; [apply settled_kept_refl|]);
      intros [_ Ht]; (split; [intros id k; simpl; by rewrite lookup_empty|done]).
  - cbn [snd]. unfold cleanup. simpl. split; [apply settled_kept_refl|].
    intros [_ Ht]. split; [intros id k; simpl; by rewrite lookup_empty|done].
Qed.

Lemma client_run_snd_cons e events c :
  snd (run JSON_parse (e :: events) c) =
  snd (run JSON_parse events (snd (step JSON_parse e c))).
Proof. by rewrite client_run_cons. Qed.

Lemma run_invariants (events : list Event) :
  handlers_ok (snd (run JSON_parse events new)) ∧
  timers_ok (snd (run JSON_parse events new)).
Proof.
  assert (H : ∀ c, handlers_ok c ∧ timers_ok c ->
    handlers_ok (snd (run JSON_parse events c)) ∧
    timers_ok (snd (run JSON_parse events c))).
  { induction events as [|e events IH]; intros c Hc; [done|].
    rewrite client_run_snd_cons. apply IH. by apply step_calls. }
  apply H. split.
  - intros id k Hk. simpl in Hk. by rewrite lookup_empty in Hk.
  - intros k call Hk. simpl in Hk. by rewrite lookup_nil in Hk.
Qed.

(** X19. Through any sequence of events on a new client, every handler in
    the table belongs to a call that carries the handler's identifier and
    whose promise is still unsettled, and every armed timer belongs to an
    unsettled call: a response never reaches an answered call and a timer
    never fires on one. *)
Theorem handlers_and_timers_belong_to_pending_calls (events : list Event) :
  handlers_ok (snd (run JSON_parse events new)) ∧
  timers_ok (snd (run JSON_parse events new)).
Proof. apply run_invariants. Qed.

(** ** A request and its response *)

Lemma increment_positive n : 0 <= n -> increment n ≠ 0.
Proof. intros H. pose proof (increment_bounds n). unfold increment in *.
  case_bool_decide; lia. Qed.

Lemma handleLine_parsed line response c :
  trim line ≠ "" -> JSON_parse line = Some response ->
  handleLine line c =
  match handleResponse response c with Ok c' => c' | Throw _ => c end.
Proof.
  intros Htrim Hparse. unfold Client.handleLine.
  by rewrite bool_decide_eq_false_2, Hparse.
Qed.

(** X23. A request and its response.  After a [sendRequest] on a client
    whose counter is not negative, a line that parses to a message with the
    identifier of the request resolves the promise of that request with the
    message and disarms its timer; the handler table is the one before the
    request, less that identifier; and the calls made before are
    untouched. *)
Theorem request_response_round_trip
    (method : string) (params : JsValue) (who : Awaiter)
    (c c1 : HybridMCPClient) (k : nat) (id : Z)
    (line : string) (response : JsValue) :
  sendRequest method params who c = Ok (k, id, c1) ->
  0 <= messageId c ->
  trim line ≠ "" ->
  JSON_parse line = Some response ->
  get_opt "id" response = JNum id ->
  calls (handleLine line c1) !! k =
    Some {| call_id := id; settlement := Resolved response;
            timer_armed := false; awaiter := who |} ∧
  responseHandlers (handleLine line c1) = delete id (responseHandlers c) ∧
  (∀ j call, calls c !! j = Some call ->
             calls (handleLine line c1) !! j = Some call) ∧
  messageId (handleLine line c1) = id.
Proof.
  intros Hsend Hcounter Htrim Hparse Hid.
  unfold sendRequest in Hsend. destruct (server c) as [child|]; [|done].
  injection Hsend as <- <- <-.
  rewrite (handleLine_parsed _ _ _ Htrim Hparse).
  set (id := increment (messageId c)) in *.
  set (c1 := {| server := Some child; messageId := id |}).
  assert (Hhandler : responseHandlers c1 !! id = Some (length (calls c))).
  { simpl. apply lookup_insert_eq. }
  assert (Hcall : calls c1 !! length (calls c) =
            Some {| call_id := id; settlement := Unsettled;
                    timer_armed := true; awaiter := who |}).
  { simpl. rewrite lookup_app_r by done. by rewrite Nat.sub_diag. }
  rewrite (handleResponse_matched response id (length (calls c)) c1 Hid
             (increment_positive _ Hcounter) Hhandler).
  split; [|split; [|split]]; simpl.
  - rewrite (settle_lookup_eq _ _ _ _ (clearTimeout_lookup_eq _ _ _ Hcall)).
    done.
  - apply delete_insert_eq.
  - intros j call Hj.
    assert (j ≠ length (calls c)).
    { apply lookup_lt_Some in Hj. lia. }
    rewrite settle_lookup_ne, clearTimeout_lookup_ne by done.
    by apply lookup_app_l_Some.
  - done.
Qed.

(** X24. The handshake.  On a client that is not connected, [connect] and
    [initialize] leave it not yet connected in the sense of [isConnected];
    the response to the initialize request makes it connected exactly when
    it carries no error; and after [close] it is not connected. *)
Theorem initialize_handshake
    (c : HybridMCPClient) (line : string) (response : JsValue) :
  server c = None ->
  initialized c = false ->
  0 <= messageId c ->
  trim line ≠ "" ->
  JSON_parse line = Some response ->
  get_opt "id" response = JNum (increment (messageId c)) ->
  ∃ c1 k c2,
    connect c = Ok c1 ∧
    initialize c1 = Ok (k, increment (messageId c), c2) ∧
    isConnected c2 = false ∧
    isConnected (handleLine line c2) =
      negb (truthy (get_opt "error" response)) ∧
    isConnected (close (handleLine line c2)) = false.
Proof.
  intros Hserver Hinit Hcounter Htrim Hparse Hid.
  unfold connect. rewrite Hserver.
  eexists _, _, _. split; [reflexivity|]. split; [reflexivity|].
  split; [unfold isConnected; simpl; by rewrite Hinit|].
  split.
  - rewrite (handleLine_parsed _ _ _ Htrim Hparse).
    erewrite handleResponse_matched;
      [|exact Hid|by apply increment_positive|simpl; apply lookup_insert_eq].
    unfold isConnected. simpl. unfold resumed. simpl.
    rewrite lookup_app_r by done. rewrite Nat.sub_diag. simpl.
    rewrite Hinit. by destruct (truthy (get_opt "error" response)).
  - unfold isConnected, close, cleanup. simpl.
    by destruct (server (handleLine line _)).
Qed.

(** ** The counter and the connection *)

Lemma step_counter_range e c :
  0 <= messageId c <= 2 ^ 53 ->
  0 <= messageId (snd (step JSON_parse e c)) <= 2 ^ 53 ∧
  ∀ id, fst (step JSON_parse e c) = Some id -> 1 <= id <= 2 ^ 53.
Proof.
  intros Hrange.
  assert (Hinc : 1 <= increment (messageId c) <= 2 ^ 53).
  { unfold increment. case_bool_decide; lia. }
  destruct e as [| |method params|chunk|k| |]; cbn [step].
  - unfold connect. by destruct (server c).
  - unfold initialize, sendRequest. destruct (server c); simpl; [|done].
    split; [lia|]. by intros id [= <-].
  - unfold sendRequest. destruct (server c); simpl; [|done].
    split; [lia|]. by intros id [= <-].
  - cbn [fst snd]. destruct (handleData_fields JSON_parse chunk c) as [-> _].
    done.
  - cbn [fst snd]. by rewrite fireTimeout_messageId.
  - cbn [fst snd]. unfold close, cleanup. simpl.
    destruct (server c); simpl; (split; [lia|done]).
  - cbn [fst snd]. simpl. split; [lia|done].
Qed.

(** X25. Through any sequence of events on a new client the counter stays
    between 0 and 2^53 and every identifier a send allocates is at least 1:
    identifier 0, which [handleResponse] would take for no identifier at
    all, is never given to a request. *)
Theorem allocated_ids_are_positive (events : list Event) :
  0 <= messageId (snd (run JSON_parse events new)) <= 2 ^ 53 ∧
  Forall (fun id => 1 <= id <= 2 ^ 53) (fst (run JSON_parse events new)).
Proof.
  assert (H : ∀ c, 0 <= messageId c <= 2 ^ 53 ->
    0 <= messageId (snd (run JSON_parse events c)) <= 2 ^ 53 ∧
    Forall (fun id => 1 <= id <= 2 ^ 53) (fst (run JSON_parse events c))).
  { induction events as [|e events IH]; intros c Hc; [by split|].
    rewrite client_run_cons. cbn [fst snd].
    destruct (step_counter_range e c Hc) as [Hnext Hid].
    destruct (IH _ Hnext) as [Hm Hids]. split; [done|].
    destruct (fst (step JSON_parse e c)) as [id|]; [|done].
    constructor; [by apply Hid|done]. }
  apply H. simpl. lia.
Qed.

(** X26. When the child exits by itself the client cleans up and keeps the
    handle of the child: [connect] then throws "Client already connected",
    while a [sendRequest] still goes through, with identifier 1, to the
    child that has exited.  Only [close] forgets the child and lets
    [connect] spawn a new one. *)
Theorem exit_keeps_the_child_handle
    (c : HybridMCPClient) (child : nat) (method : string) (params : JsValue)
    (who : Awaiter) :
  server c = Some child ->
  snd (step JSON_parse EvExit c) = cleanup c ∧
  connect (cleanup c) = Throw (ThrownError "Client already connected") ∧
  (∃ k c', sendRequest method params who (cleanup c) = Ok (k, 1, c') ∧
           stdin c' = stdin c ++ [(child, {| req_id := 1; req_method := method;
                                             req_params := params |})]) ∧
  ∃ c', connect (close c) = Ok c' ∧ server c' = Some (spawned c).
Proof.
  intros Hserver. split; [done|]. split; [|split].
  - unfold connect, cleanup. simpl. by rewrite Hserver.
  - unfold sendRequest, cleanup. simpl. rewrite Hserver. by eexists _, _.
  - unfold connect, close, cleanup. simpl. rewrite Hserver. simpl.
    by eexists.
Qed.

End Reader.

End ClientMore.

(** * The further properties at sample inputs *)

Module MoreExamples.

Import Service ServiceProps ServiceMore Server ServerMore Handlers HandlersMore.
Import Samples.

Lemma descriptor_is_immutable_witness :
  same_descriptor (specX "7d1f" 1000)
    (set_status Success (specX "7d1f" 1000)) ∧
  is_Some (executions (oneSpec "7d1f" 1000) !! "7d1f").
Proof.
  destruct (descriptor_is_immutable
              [CallExecute "7d1f" (Rejected http500) 2000;
               CallGenerate "a0c4" 3000 queryX;
               CallExecute "7d1f" (Fulfilled twoObservations) 4000]
              (oneSpec "7d1f" 1000) "7d1f" (specX "7d1f" 1000)
              (set_status Success (specX "7d1f" 1000))) as [H1 H2].
  - by compute_done.
  - reflexivity.
  - split; [apply H1; reflexivity | exact H2].
Defined.

Lemma sweeps_compose_witness :
  dom (executions (cleanupOldSpecs 9900000 (Some 1000000) threeSpecs)) =
    ({["new"; "mid"]} : gset string) ∧
  dom (executions (cleanupOldSpecs 10000000 (Some 200000) threeSpecs)) =
    ({["new"]} : gset string) ∧
  cleanupOldSpecs 9900000 (Some 1000000)
      (cleanupOldSpecs 10000000 (Some 200000) threeSpecs) =
    cleanupOldSpecs 10000000 (Some 200000) threeSpecs.
Proof.
  split; [by compute_done|]. split; [by compute_done|].
  destruct (sweeps_compose 9900000 10000000 (Some 1000000) (Some 200000)
              threeSpecs) as (_ & _ & H).
  apply H.
  - lia.
  - simpl. lia.
Defined.

Lemma validateSpec_of_generated_witness :
  validateSpec (specX "7d1f" 1000) = true ∧
  validateSpec (set_status Error (specX "7d1f" 1000)) =
    validateSpec (specX "7d1f" 1000).
Proof.
  apply (validateSpec_of_generated "7d1f" 1000 queryX fresh
           (snd (step (CallGenerate "7d1f" 1000 queryX) fresh))
           (specX "7d1f" 1000) Error).
  reflexivity.
Defined.

Lemma table_expiry_and_default_sweep_witness :
  (executions (cleanupOldSpecs 900000 None (oneSpec "7d1f" 0)) !! "7d1f" = None ->
   expiresInCell 900000 (specX "7d1f" 0) = "EXPIRED") ∧
  (900000 - timestamp (specX "7d1f" 0) = DEFAULT_TTL ->
   expiresInCell 900000 (specX "7d1f" 0) = "EXPIRED" ∧
   executions (cleanupOldSpecs 900000 None (oneSpec "7d1f" 0)) !! "7d1f" =
     Some (specX "7d1f" 0)).
Proof.
  apply (table_expiry_and_default_sweep 900000 (oneSpec "7d1f" 0) "7d1f"
           (specX "7d1f" 0)).
  - repeat split.
  - reflexivity.
Defined.

Lemma service_requests_only_abs_data_witness :
  ∃ datasetId,
    "https://data.api.abs.gov.au/rest/data/X/all?format=jsondata&dimensionAtObservation=AllDimensions" =
    abs_data_url datasetId.
Proof.
  apply (service_requests_only_abs_data lifetime).
  by compute_done.
Defined.

Lemma handleExecuteDirect_returns_no_text_witness :
  (None : option string) = None ∧
  ∃ id spec data,
    get_opt "executionId" (JObj [("executionId", JStr "7d1f")]) = JStr id ∧
    executions (oneSpec "7d1f" 0) !! id = Some spec ∧
    Fulfilled twoObservations = Fulfilled data ∧
    executions
      (snd (handleExecuteDirect to_string (JObj [("executionId", JStr "7d1f")])
              (Fulfilled twoObservations) 5 (oneSpec "7d1f" 0))) !! id =
      Some (set_status Success spec) ∧
    http_log
      (snd (handleExecuteDirect to_string (JObj [("executionId", JStr "7d1f")])
              (Fulfilled twoObservations) 5 (oneSpec "7d1f" 0))) =
      http_log (oneSpec "7d1f" 0) ++ [request_url spec].
Proof.
  apply (handleExecuteDirect_returns_no_text to_string
           (JObj [("executionId", JStr "7d1f")]) (Fulfilled twoObservations) 5
           (oneSpec "7d1f" 0)).
  reflexivity.
Defined.

Lemma handleExecuteDirect_failures_witness :
  ∃ st',
    handleExecuteDirect to_string (JObj [("executionId", JStr "7d1f")])
      (Rejected http500) 5 (oneSpec "7d1f" 0) =
      (Throw (ThrownError "Request failed with status code 500"), st') ∧
    executions st' !! "7d1f" = Some (set_status Error (specX "7d1f" 0)).
Proof.
  exact (handleExecuteDirect_failures to_string "7d1f"
           (JObj [("executionId", JStr "7d1f")]) http500 5 (oneSpec "7d1f" 0)
           eq_refl ltac:(discriminate)).
Defined.

Lemma query_then_execute_witness :
  ∃ response st1 st2,
    callTool to_string "query_dataset" (q_parameters queryX) "7d1f"
        (Rejected http500) 1000 fresh = (Ok (QueryReply response), st1) ∧
    executionId (_meta response) = "7d1f" ∧
    callTool to_string "execute_direct" (JObj [("executionId", JStr "7d1f")])
        "a0c4" (Fulfilled twoObservations) 2000 st1 =
      (Ok (DirectReply None), st2) ∧
    http_log st2 = http_log fresh ++ [abs_data_url "X"] ∧
    status <$> executions st2 !! "7d1f" = Some Success.
Proof.
  apply (query_then_execute to_string (q_parameters queryX) "X" "7d1f" "a0c4"
           (Rejected http500) twoObservations 1000 2000 fresh);
    [reflexivity | discriminate | discriminate].
Defined.

Lemma handleQueryDataset_descriptor_matches_fetch_witness :
  endpoint <$>
    h_meta
      {| h_executionId := "7d1f"; h_status := "success"; h_datasetId := "X";
         h_recordCount := 2; h_summary := summary 2 "X";
         h_apiCall := apiCall (specX "7d1f" 0); h_data := None;
         h_meta := Some {| m_executionId := "7d1f"; endpoint := query_url "X";
                           m_timestamp := 1000; hybridReady := true |} |} =
  Some (request_url (specX "7d1f" 0)).
Proof.
  destruct (handleQueryDataset_descriptor_matches_fetch to_string
              (q_parameters queryX) (AxFulfilled twoObservations) "7d1f" 1000
              {| h_executionId := "7d1f"; h_status := "success";
                 h_datasetId := "X"; h_recordCount := 2;
                 h_summary := summary 2 "X";
                 h_apiCall := apiCall (specX "7d1f" 0); h_data := None;
                 h_meta := Some {| m_executionId := "7d1f";
                                   endpoint := query_url "X";
                                   m_timestamp := 1000;
                                   hybridReady := true |} |} eq_refl)
    as (_ & _ & _ & H).
  exact H.
Defined.

Lemma handleQueryDatasetWithService_agrees_with_executeSpec_witness :
  ∃ response spec st',
    handleQueryDatasetWithService to_string (q_parameters queryX) "7d1f" 1000
      (AxFulfilled twoObservations) fresh = (Ok response, st') ∧
    h_data response = None ∧
    h_executionId response = "7d1f" ∧
    executions st' !! "7d1f" = Some spec ∧ status spec = Pending ∧
    http_log st' = http_log fresh ++ [request_url spec] ∧
    r_recordCount (fst (executeSpec "7d1f" (Fulfilled twoObservations) 2000 st')) =
      Some (h_recordCount response) ∧
    http_log (snd (executeSpec "7d1f" (Fulfilled twoObservations) 2000 st')) =
      http_log fresh ++ [request_url spec; request_url spec].
Proof.
  apply (handleQueryDatasetWithService_agrees_with_executeSpec to_string
           (q_parameters queryX) "X" "7d1f" 1000 2000 twoObservations fresh).
  reflexivity.
Defined.

Lemma handleQueryDatasetWithService_failure_leaves_spec_witness :
  ∃ e spec st',
    handleQueryDatasetWithService to_string (q_parameters queryX) "7d1f" 1000
      (AxStatus 404 JNull) fresh = (Throw e, st') ∧
    e = ThrownError ("ABS API Error: " +:+ pretty 404 +:+ " - " +:+
                     to_string JNull) ∧
    executions st' !! "7d1f" = Some spec ∧ status spec = Pending ∧
    http_log st' = http_log fresh ++ [request_url spec].
Proof.
  destruct (handleQueryDatasetWithService_failure_leaves_spec to_string
              (q_parameters queryX) "X" "7d1f" 1000 (AxStatus 404 JNull) fresh
              eq_refl ltac:(discriminate)) as [H _].
  exact H.
Defined.

Import Client ClientProps ClientMore ClientSamples.

Lemma response_completes_its_call_once_witness :
  ∃ c',
    handleResponse (JObj [("id", JNum 2)]) twoPending = Ok c' ∧
    calls c' !! 1%nat =
      Some {| call_id := 2; settlement := Resolved (JObj [("id", JNum 2)]);
              timer_armed := false; awaiter := AwaitCaller |} ∧
    (∀ j, j ≠ 1%nat -> calls c' !! j = calls twoPending !! j) ∧
    responseHandlers c' = delete 2 (responseHandlers twoPending) ∧
    handleResponse (JObj [("id", JNum 2)]) c' = Ok c'.
Proof.
  apply (response_completes_its_call_once (JObj [("id", JNum 2)]) 2 1
           {| call_id := 2; settlement := Unsettled; timer_armed := true;
              awaiter := AwaitCaller |} twoPending);
    [reflexivity | discriminate | reflexivity | reflexivity | reflexivity].
Defined.

Lemma timeout_rejects_and_forgets_witness :
  settlement <$> calls (fireTimeout 1 twoPending) !! 1%nat =
    Some (RejectedWith "Request timeout") ∧
  handleResponse (JObj [("id", JNum 2)]) (fireTimeout 1 twoPending) =
    Ok (fireTimeout 1 twoPending).
Proof.
  destruct (timeout_rejects_and_forgets 1
              {| call_id := 2; settlement := Unsettled; timer_armed := true;
                 awaiter := AwaitCaller |} twoPending (JObj [("id", JNum 2)])
              eq_refl eq_refl eq_refl eq_refl eq_refl)
    as (H1 & _ & _ & H2 & _).
  split; [by rewrite H1 | exact H2].
Defined.

Lemma timer_removes_the_handler_of_another_call_witness :
  responseHandlers (fireTimeout 0 reusedId) !! 1 = None ∧
  calls (fireTimeout 0 reusedId) !! 1%nat = calls reusedId !! 1%nat ∧
  settlement <$> calls reusedId !! 1%nat = Some Unsettled ∧
  handleResponse (JObj [("id", JNum 1)]) (fireTimeout 0 reusedId) =
    Ok (fireTimeout 0 reusedId) ∧
  settlement <$> calls (fireTimeout 1 (fireTimeout 0 reusedId)) !! 1%nat =
    Some Unsettled.
Proof.
  apply (timer_removes_the_handler_of_another_call 0 1 firstCall reusedId
           (JObj [("id", JNum 1)])).
  - apply (run_invariants parse_id_object).
  - reflexivity.
  - reflexivity.
  - reflexivity.
  - discriminate.
  - reflexivity.
Defined.

Lemma request_response_round_trip_witness :
  calls (handleLine parse_id_object (idObject "2") twoPending) !! 1%nat =
    Some {| call_id := 2; settlement := Resolved (JObj [("id", JNum 2)]);
            timer_armed := false; awaiter := AwaitCaller |} ∧
  messageId (handleLine parse_id_object (idObject "2") twoPending) = 2.
Proof.
  destruct (request_response_round_trip parse_id_object "tools/list" JUndefined
              AwaitCaller
              (snd (run parse_id_object [EvConnect; EvInitialize] new))
              twoPending 1 2 (idObject "2") (JObj [("id", JNum 2)])
              eq_refl ltac:(discriminate) ltac:(discriminate) eq_refl eq_refl)
    as (H1 & _ & _ & H2).
  split; [exact H1 | exact H2].
Defined.

Lemma initialize_handshake_witness :
  ∃ c1 k c2,
    connect new = Ok c1 ∧
    initialize c1 = Ok (k, increment (messageId new), c2) ∧
    isConnected c2 = false ∧
    isConnected (handleLine parse_id_object (idObject "1") c2) =
      negb (truthy (get_opt "error" (JObj [("id", JNum 1)]))) ∧
    isConnected (close (handleLine parse_id_object (idObject "1") c2)) = false.
Proof.
  apply (initialize_handshake parse_id_object new (idObject "1")
           (JObj [("id", JNum 1)]));
    [reflexivity | reflexivity | discriminate | discriminate
    | reflexivity | reflexivity].
Defined.

Lemma exit_keeps_the_child_handle_witness :
  connect (cleanup twoPending) = Throw (ThrownError "Client already connected").
Proof.
  destruct (exit_keeps_the_child_handle parse_id_object twoPending 0
              "tools/list" JUndefined AwaitCaller eq_refl) as (_ & H & _).
  exact H.
Defined.

End MoreExamples.

(** * The reader of the child's output, from bytes to calls *)

Module ReaderProps.

Import Client ClientProps ClientMore ClientSamples.

(** ** Decoding chunk by chunk *)

Lemma append_nil_r (s : string) : s +:+ EmptyString = s.
Proof.
  induction s as [|c s IH]; [done|].
  change (String c (s +:+ EmptyString) = String c s). by rewrite IH.
Qed.

Lemma decode_out_app st a b :
  decode_out st (a +:+ b) =
  decode_out st a +:+ decode_out (decode_state st a) b.
Proof.
  revert st. induction a as [|x a IH]; intros st; [done|].
  change (String x a +:+ b) with (String x (a +:+ b)).
  cbn [decode_out decode_state]. by rewrite IH, append_assoc.
Qed.

Lemma decode_state_app st a b :
  decode_state st (a +:+ b) = decode_state (decode_state st a) b.
Proof.
  revert st. induction a as [|x a IH]; intros st; [done|].
  change (String x a +:+ b) with (String x (a +:+ b)).
  cbn [decode_state]. by rewrite IH.
Qed.

(** Decoding two chunks one by one is decoding them as one when the first
    ends between two characters. *)
Lemma toString_app a b :
  ends_between_characters a ->
  toString (a +:+ b) = toString a +:+ toString b.
Proof.
  unfold ends_between_characters, toString. intros Ha.
  rewrite decode_out_app, decode_state_app, Ha, append_nil_r.
  by rewrite append_assoc.
Qed.

Section Reader.

Variable JSON_parse : string -> option JsValue.

Local Abbreviation handleLine := (Client.handleLine JSON_parse).
Local Abbreviation handleData := (Client.handleData JSON_parse).
Local Abbreviation onData := (Client.onData JSON_parse).
Local Abbreviation handleLines :=
  (fold_left (fun c line => Client.handleLine JSON_parse line c)).

Lemma handleData_framed c data lines tail :
  Forall no_newline lines -> no_newline tail ->
  buffer c +:+ data = framed lines tail ->
  handleData data c = set_buffer tail (handleLines lines c).
Proof.
  intros Hlines Htail Hframed. unfold Client.handleData.
  rewrite Hframed, split_newline_framed by done.
  rewrite removelast_last, last_last. apply handleLines_set_buffer.
Qed.


End Reader.

(** ** At sample inputs *)



End ReaderProps.
